(** * le-mistral: the streaming chat relay and its client-side stream framer

    A shallow embedding of
    - [api/chat.ts]: the model resolver ([FAMILY_ALIASES], [PREFER_CHAT]) and
      the upstream dispatcher ([handler], [callChatCompletions],
      [callConversations], [parseUpstreamError]);
    - [src/lib/chatApi.ts]: the stream framer ([streamMistralReply],
      [extractDataJsonFromFrame], [extractTextFromDeltaContent]);
    - the attachment block of [handler] in [api/chat.ts] with its helpers
      ([normalizeWhitespace], [truncateForModel], [stringifyContent],
      [mergeWithAdditionalText], [toVisionContent]) and [convInputs];
    - [src/lib/metricsStore.ts] ([recordMistralMetric],
      [estimateTokensFromChars]) and [src/lib/evalRunner.ts]
      ([runEvalForModel]);
    - [generateSessionTitle], [fileToBase64] and [prepareAttachments] of
      [src/lib/chatApi.ts].

    JavaScript strings are sequences of UTF-16 code units and are modelled as
    [list N]; byte chunks are [list byte].  The parts of the JavaScript
    runtime that the code calls but does not define (the JSON parser and
    printer, number formatting, Unicode lower-casing) are the fields of the
    class [JsRuntime]. *)

From Stdlib Require Import NArith ZArith List Bool Lia.
From Stdlib.Strings Require Import String Ascii Byte.
From Stdlib Require Import DecimalString.
From stdpp Require Import base option list gmap sets.
Import ListNotations.

Local Open Scope N_scope.
Local Open Scope list_scope.

(** ** JavaScript strings *)

Abbreviation text := (list N).

(** A string literal of the source (ASCII only) as code units. *)
Definition T (s : string) : text :=
  List.map N_of_ascii (list_ascii_of_string s).

Definition LF : N := 10.
Definition CR : N := 13.

(** [s === t] on strings. *)
Definition text_eqb (s t : text) : bool := bool_decide (s = t).

(** WhiteSpace and LineTerminator code units, the ones [String.prototype.trim]
    strips. *)
Definition is_js_space (c : N) : bool :=
  (c =? 9) || (c =? 10) || (c =? 11) || (c =? 12) || (c =? 13) || (c =? 32)
  || (c =? 160) || (c =? 5760) || ((8192 <=? c) && (c <=? 8202))
  || (c =? 8232) || (c =? 8233) || (c =? 8239) || (c =? 8287)
  || (c =? 12288) || (c =? 65279).

Fixpoint trimStart (s : text) : text :=
  match s with
  | c :: r => if is_js_space c then trimStart r else s
  | [] => []
  end.

Definition trimEnd (s : text) : text := rev (trimStart (rev s)).

Definition trim (s : text) : text := trimEnd (trimStart s).

Fixpoint startsWith (s p : text) : bool :=
  match p, s with
  | [], _ => true
  | _ :: _, [] => false
  | a :: p', b :: s' => (a =? b) && startsWith s' p'
  end.

(** [s.indexOf(p)]; [None] stands for -1. *)
Fixpoint indexOf (s p : text) : option nat :=
  if startsWith s p then Some O
  else match s with
       | [] => None
       | _ :: r => option_map S (indexOf r p)
       end.

(** [s.includes(p)]. *)
Definition includes (s p : text) : bool :=
  match indexOf s p with Some _ => true | None => false end.

(** [s.slice(k)] for [0 <= k]. *)
Definition slice_from (k : nat) (s : text) : text := skipn k s.

(** Puts a code unit in front of the first piece of a split. *)
Definition cons_head (c : N) (pieces : list text) : list text :=
  match pieces with
  | [] => [[c]]
  | p :: ps => (c :: p) :: ps
  end.

(** [s.split("\n\n")]: leftmost, non-overlapping occurrences of the frame
    delimiter; never empty. *)
Fixpoint split_frames (s : text) : list text :=
  match s with
  | [] => [[]]
  | c :: r =>
      match r with
      | c' :: r' =>
          if (c =? LF) && (c' =? LF) then [] :: split_frames r'
          else cons_head c (split_frames r)
      | [] => cons_head c (split_frames r)
      end
  end.

(** [s.split(/\r?\n/)]: a line ends at LF, or at CR LF. *)
Fixpoint split_lines (s : text) : list text :=
  match s with
  | [] => [[]]
  | c :: r =>
      if c =? LF then [] :: split_lines r
      else match r with
           | c' :: r' =>
               if (c =? CR) && (c' =? LF) then [] :: split_lines r'
               else cons_head c (split_lines r)
           | [] => cons_head c (split_lines r)
           end
  end.

(** [frames.pop()] on a non-empty array: the removed last element and what
    stays in the array. *)
Definition pop_last (pieces : list text) : text := List.last pieces [].
Definition pop_rest (pieces : list text) : list text := List.removelast pieces.

(** [`${n}`] for a non-negative integer. *)
Definition N_to_text (n : N) : text :=
  T (NilZero.string_of_uint (N.to_uint n)).

(** ** The streaming UTF-8 decoder: [new TextDecoder("utf-8")] used with
    [{ stream: true }]

    The decoder of the Encoding standard: it keeps the bytes of an unfinished
    character between calls and drops a leading byte order mark. *)

Record Utf8Decoder := {
  code_point : N;
  bytes_seen : N;
  bytes_needed : N;
  lower_boundary : N;
  upper_boundary : N;
  bom_seen : bool
}.

Definition new_TextDecoder : Utf8Decoder :=
  {| code_point := 0; bytes_seen := 0; bytes_needed := 0;
     lower_boundary := 128; upper_boundary := 191; bom_seen := false |}.

Definition REPLACEMENT : N := 65533.

(** A byte read while no character is pending: the updated decoder fields
    and the scalar values produced. *)
Definition utf8_lead (bom : bool) (b : N) : Utf8Decoder * list N :=
  let idle := {| code_point := 0; bytes_seen := 0; bytes_needed := 0;
                 lower_boundary := 128; upper_boundary := 191;
                 bom_seen := bom |} in
  if b <=? 127 then (idle, [b])
  else if (194 <=? b) && (b <=? 223) then
    ({| code_point := N.land b 31; bytes_seen := 0; bytes_needed := 1;
        lower_boundary := 128; upper_boundary := 191; bom_seen := bom |}, [])
  else if (224 <=? b) && (b <=? 239) then
    ({| code_point := N.land b 15; bytes_seen := 0; bytes_needed := 2;
        lower_boundary := if b =? 224 then 160 else 128;
        upper_boundary := if b =? 237 then 159 else 191;
        bom_seen := bom |}, [])
  else if (240 <=? b) && (b <=? 244) then
    ({| code_point := N.land b 7; bytes_seen := 0; bytes_needed := 3;
        lower_boundary := if b =? 240 then 144 else 128;
        upper_boundary := if b =? 244 then 143 else 191;
        bom_seen := bom |}, [])
  else (idle, [REPLACEMENT]).

(** One byte through the decoder's handler.  A byte that breaks a pending
    character yields U+FFFD and is then read again as a lead byte. *)
Definition utf8_handler (d : Utf8Decoder) (b : N) : Utf8Decoder * list N :=
  if bytes_needed d =? 0 then utf8_lead (bom_seen d) b
  else if negb ((lower_boundary d <=? b) && (b <=? upper_boundary d)) then
    let '(d', out) := utf8_lead (bom_seen d) b in (d', REPLACEMENT :: out)
  else
    let cp := N.lor (N.shiftl (code_point d) 6) (N.land b 63) in
    if bytes_seen d + 1 =? bytes_needed d then
      ({| code_point := 0; bytes_seen := 0; bytes_needed := 0;
          lower_boundary := 128; upper_boundary := 191;
          bom_seen := bom_seen d |}, [cp])
    else
      ({| code_point := cp; bytes_seen := bytes_seen d + 1;
          bytes_needed := bytes_needed d;
          lower_boundary := 128; upper_boundary := 191;
          bom_seen := bom_seen d |}, []).

(** A scalar value as UTF-16 code units. *)
Definition utf16_units (cp : N) : text :=
  if cp <? 65536 then [cp]
  else [55296 + N.shiftr (cp - 65536) 10; 56320 + N.land (cp - 65536) 1023].

(** Output of the decoded scalar values: the first one of the stream is
    dropped when it is the byte order mark. *)
Fixpoint serialize (bom : bool) (cps : list N) : bool * text :=
  match cps with
  | [] => (bom, [])
  | cp :: r =>
      if bom then let '(b', s) := serialize true r in (b', utf16_units cp ++ s)
      else if cp =? 65279 then serialize true r
      else let '(b', s) := serialize true r in (b', utf16_units cp ++ s)
  end.

Definition set_bom (d : Utf8Decoder) (bom : bool) : Utf8Decoder :=
  {| code_point := code_point d; bytes_seen := bytes_seen d;
     bytes_needed := bytes_needed d; lower_boundary := lower_boundary d;
     upper_boundary := upper_boundary d; bom_seen := bom |}.

Definition decode_byte (d : Utf8Decoder) (b : byte) : Utf8Decoder * text :=
  let '(d', cps) := utf8_handler d (Byte.to_N b) in
  let '(bom', s) := serialize (bom_seen d) cps in
  (set_bom d' bom', s).

(** [decoder.decode(value, { stream: true })]: the pending bytes stay in the
    decoder, nothing is flushed. *)
Fixpoint decode_stream (d : Utf8Decoder) (value : list byte) : Utf8Decoder * text :=
  match value with
  | [] => (d, [])
  | b :: r =>
      let '(d1, s1) := decode_byte d b in
      let '(d2, s2) := decode_stream d1 r in
      (d2, s1 ++ s2)
  end.

(** ** JSON values and the JavaScript runtime *)

(** What [JSON.parse] returns.  The numbers are the runtime's own. *)
#[local] Unset Elimination Schemes.
Inductive JValue {num : Type} : Type :=
| JNull
| JBool (b : bool)
| JNumber (n : num)
| JString (s : text)
| JArray (items : list JValue)
| JObject (props : list (text * JValue)).

#[local] Set Elimination Schemes.

Arguments JValue : clear implicits.

(** Built-ins of the runtime and of the platform that the repository
    calls. *)
Class JsRuntime := {
  num : Type;
  (** [!!n]: neither zero nor NaN *)
  num_truthy : num -> bool;
  (** [String(n)] *)
  num_toString : num -> text;
  (** [JSON.parse(s)]; [None] when it throws *)
  JSON_parse : text -> option (JValue num);
  (** [JSON.stringify(v)] *)
  JSON_stringify : JValue num -> text;
  (** [s.toLowerCase()] *)
  toLowerCase : text -> text;
  (** the message of the TypeError that [String(v)] throws for an object
      that cannot be converted to a primitive value *)
  cannot_convert : text;
  (** [res.setHeader(...)] once a chunk has been written: the message of
      the Error it throws (Node: ERR_HTTP_HEADERS_SENT), or [None] for a
      response object that accepts the call *)
  headers_sent_error : option text
}.

(** What a rejected promise or a [throw] carries, as far as the [catch]
    clauses of the source tell values apart. *)
Inductive Thrown :=
| AbortError (message : text)      (* a DOMException named "AbortError" *)
| ErrorObject (message : text)     (* any other instance of Error *)
| OtherThrown (as_string : text).  (* not an Error; [String(error)] given *)

Abbreviation value := (JValue num).

Section Values.
Context {rt : JsRuntime}.

Definition is_empty (s : text) : bool :=
  match s with [] => true | _ :: _ => false end.

(** [!!v] *)
Definition truthy (v : value) : bool :=
  match v with
  | JNull => false
  | JBool b => b
  | JNumber n => num_truthy n
  | JString s => negb (is_empty s)
  | JArray _ | JObject _ => true
  end.

Fixpoint assoc (k : text) (props : list (text * value)) : option value :=
  match props with
  | [] => None
  | (k', v) :: r => if text_eqb k k' then Some v else assoc k r
  end.

(** [v.k] for the property names the source reads ([type], [content],
    [error], [choices], [delta], [message], [text]): an own property of an
    object, [undefined] ([None]) on anything else. *)
Definition prop (v : value) (k : text) : option value :=
  match v with
  | JObject props => assoc k props
  | _ => None
  end.

(** [v?.k], where [v] may be [null]. *)
Definition opt_prop (v : value) (k : text) : option value :=
  match v with
  | JNull => None
  | _ => prop v k
  end.

(** The value when it is truthy: the [a] of [if (a)] and of [a || ...]. *)
Definition when_truthy (o : option value) : option value :=
  match o with
  | Some v => if truthy v then Some v else None
  | None => None
  end.

Fixpoint join (sep : text) (parts : list text) : text :=
  match parts with
  | [] => []
  | [p] => p
  | p :: r => p ++ sep ++ join sep r
  end.

Fixpoint has_key (k : text) (props : list (text * value)) : bool :=
  match props with
  | [] => false
  | (k', _) :: r => text_eqb k k' || has_key k r
  end.

(** [String(v)] for a value that [JSON.parse] returned; [None] when it
    throws a TypeError.  An object with an own property [toString] has no
    primitive value (the property is not callable, and the inherited
    [valueOf] returns the object); any other object is "[object Object]".
    An array joins the strings of its elements, [null] counting as the
    empty string. *)
Fixpoint js_String (v : value) : option text :=
  match v with
  | JNull => Some (T "null")
  | JBool true => Some (T "true")
  | JBool false => Some (T "false")
  | JNumber n => Some (num_toString n)
  | JString s => Some s
  | JArray items =>
      option_map (join (T ","))
        ((fix strings (l : list value) : option (list text) :=
            match l with
            | [] => Some []
            | x :: r =>
                match (match x with
                       | JNull => Some []
                       | _ => js_String x
                       end) with
                | Some s => option_map (cons s) (strings r)
                | None => None
                end
            end) items)
  | JObject props =>
      if has_key (T "toString") props then None
      else Some (T "[object Object]")
  end.

(** [typeof v === "string" ? v : ""] on a possibly undefined value. *)
Definition string_or_empty (o : option value) : text :=
  match o with Some (JString s) => s | _ => [] end.

(** [txt || dflt] on strings. *)
Definition text_or (txt dflt : text) : text :=
  if is_empty txt then dflt else txt.

End Values.

(** ** The stream framer: [src/lib/chatApi.ts] *)

Section Framer.
Context {rt : JsRuntime}.

(** The calls made on the [callbacks] object, in order.  The callbacks are
    observers: they return normally, or they throw where the function
    would make no other call anyway (as the [onError] of the evaluation
    runner can, on the error value of a response that is not ok). *)
Inductive Callback :=
| OnStart (assistantId : text)
| OnToken (chunk : text) (assistantId : text)
| OnDone (assistantId : text)
| OnError (errText : value) (assistantId : text)
| OnAbort (assistantId : text).

Definition extractDataJsonFromFrame (frame : text) : option value :=
  let lines := split_lines frame in
  match List.find (fun l => startsWith (trim l) (T "data:")) lines with
  | None => None
  | Some dataLine =>
      let at_ := match indexOf dataLine (T "data:") with
                 | Some i => (i + 5)%nat
                 | None => 4%nat
                 end in
      let jsonStr := trim (slice_from at_ dataLine) in
      if is_empty jsonStr || text_eqb jsonStr (T "[DONE]") then None
      else JSON_parse jsonStr
  end.

Definition extractTextFromDeltaContent (content : option value) : text :=
  match content with
  | Some (JString s) => s
  | Some (JArray items) =>
      join []
        (List.map (fun chunk => string_or_empty (opt_prop chunk (T "text")))
           items)
  | _ => []
  end.

(** [evt.type === name] *)
Definition type_is (evt : value) (name : text) : bool :=
  match prop evt (T "type") with
  | Some (JString s) => text_eqb s name
  | _ => false
  end.

(** How one turn of [for (const frame of frames)] ends: with [continue] (or
    by reaching the end of the body), or with [return]. *)
Inductive Turn :=
| Continue (calls : list Callback)
| Return (calls : list Callback).

Definition token (assistantId piece : text) : list Callback :=
  if is_empty piece then [] else [OnToken piece assistantId].

(** [choice?.delta || choice?.message || {}] *)
Definition choice_delta (choice : value) : value :=
  match when_truthy (opt_prop choice (T "delta")) with
  | Some d => d
  | None =>
      match when_truthy (opt_prop choice (T "message")) with
      | Some m => m
      | None => JObject []
      end
  end.

(** The "Chat Completions-style" branch of the loop body. *)
Definition on_choices (assistantId : text) (evt : value) : Turn :=
  match prop evt (T "choices") with
  | Some (JArray (choice :: _)) =>
      let delta := choice_delta choice in
      let piece := extractTextFromDeltaContent (opt_prop delta (T "content")) in
      Continue (token assistantId piece)
  | _ => Continue []
  end.

(** The body of the loop over frames, from the parsed event on. *)
Definition on_event (assistantId : text) (evt : value) : Turn :=
  if type_is evt (T "message.output.delta") then
    Continue (token assistantId (string_or_empty (prop evt (T "content"))))
  else if type_is evt (T "conversation.response.done") then
    Continue [OnDone assistantId]
  else
    match when_truthy (prop evt (T "error")) with
    | Some e =>
        (* [String(evt.error)] may throw: the [catch] around the loop then
           reports the message of the TypeError *)
        Return [OnError (JString (default cannot_convert (js_String e)))
                  assistantId]
    | None => on_choices assistantId evt
    end.

Definition on_frame (assistantId : text) (frame : text) : Turn :=
  match extractDataJsonFromFrame frame with
  | None => Continue []
  | Some evt => if truthy evt then on_event assistantId evt else Continue []
  end.

(** A turn that continues is followed by the next one; a turn that returns
    ends the loop (and the function). *)
Definition then_turn (a b : Turn) : Turn :=
  match a with
  | Return calls => Return calls
  | Continue calls =>
      match b with
      | Continue more => Continue (calls ++ more)
      | Return more => Return (calls ++ more)
      end
  end.

Definition turn_calls (t : Turn) : list Callback :=
  match t with Continue calls | Return calls => calls end.

(** [for (const frame of frames) { ... }] *)
Fixpoint for_frames (assistantId : text) (frames : list text) : Turn :=
  match frames with
  | [] => Continue []
  | frame :: rest =>
      then_turn (on_frame assistantId frame) (for_frames assistantId rest)
  end.

(** How the body stream ends: [reader.read()] reports [done], or rejects,
    or never settles (the function sets no timeout). *)
Inductive ReadEnd :=
| EndOfStream
| ReadRejects (error : Thrown)
| ReadStalls.

(** [callbacks.onAbort?.(assistantId)] *)
Definition call_onAbort (hasOnAbort : bool) (assistantId : text)
  : list Callback :=
  if hasOnAbort then [OnAbort assistantId] else [].

(** The [catch] around the read loop. *)
Definition catch_read (hasOnAbort : bool) (assistantId : text)
    (error : Thrown) : list Callback :=
  match error with
  | AbortError _ => call_onAbort hasOnAbort assistantId
  | ErrorObject message => [OnError (JString message) assistantId]
  | OtherThrown _ => [OnError (JString (T "Stream read error")) assistantId]
  end.

(** The [while (true)] loop over [reader.read()], with the final [onDone]
    and the [catch]: the calls made from the state [(decoder, buffer)] on
    the chunks still to come. *)
Fixpoint read_loop (hasOnAbort : bool) (assistantId : text)
    (decoder : Utf8Decoder) (buffer : text)
    (chunks : list (list byte)) (fin : ReadEnd) : list Callback :=
  match chunks with
  | [] =>
      match fin with
      | EndOfStream => [OnDone assistantId]
      | ReadRejects error => catch_read hasOnAbort assistantId error
      | ReadStalls => []
      end
  | value :: rest =>
      let '(decoder', s) := decode_stream decoder value in
      let frames := split_frames (buffer ++ s) in
      match for_frames assistantId (pop_rest frames) with
      | Return calls => calls
      | Continue calls =>
          calls ++ read_loop hasOnAbort assistantId decoder'
                     (pop_last frames) rest fin
      end
  end.

(** What [await res.text()] comes to. *)
Inductive TextRead :=
| TextIs (txt : text)
| TextRejects
| TextStalls.

(** The response of [fetch(PROXY_URL, ...)]. *)
Record Response := {
  status : N;
  (** [await res.text()] *)
  res_text : TextRead;
  (** [res.body]: the chunks its reader yields and how the stream ends;
      [None] when there is no body *)
  res_body : option (list (list byte) * ReadEnd)
}.

Definition res_ok (res : Response) : bool :=
  (200 <=? status res) && (status res <=? 299).

(** What [await fetch(PROXY_URL, ...)] comes to; it may never settle. *)
Inductive FetchOutcome :=
| FetchRejects (error : Thrown)
| FetchResolves (res : Response)
| FetchStalls.

(** The [errText] built when [!res.ok]. *)
Definition api_error_text (res : Response) : value :=
  let errText := T "API error " ++ N_to_text (status res) in
  match res_text res with
  | TextRejects | TextStalls => JString errText
  | TextIs txt =>
      match JSON_parse txt with
      | Some j =>
          match when_truthy (opt_prop j (T "error")) with
          | Some e => e
          | None => JString (text_or txt errText)
          end
      | None => JString (text_or txt errText)
      end
  end.

(** [streamMistralReply]: the calls it makes on [callbacks].
    [presetAssistantId] is [callbacks.assistantId], [generated] the value
    [generateId("assistant")] would return, [hasOnAbort] whether
    [callbacks.onAbort] is given. *)
Definition streamMistralReply (presetAssistantId : option text)
    (generated : text) (hasOnAbort : bool) (fetched : FetchOutcome)
  : list Callback :=
  let assistantId := default generated presetAssistantId in
  OnStart assistantId ::
  match fetched with
  | FetchRejects (AbortError _) => call_onAbort hasOnAbort assistantId
  | FetchRejects (ErrorObject message) =>
      [OnError (JString message) assistantId]
  | FetchRejects (OtherThrown _) =>
      [OnError (JString (T "Network error while contacting chat API."))
         assistantId]
  | FetchStalls => []
  | FetchResolves res =>
      if negb (res_ok res) then
        match res_text res with
        | TextStalls => []
        | _ => [OnError (api_error_text res) assistantId]
        end
      else
        match res_body res with
        | None =>
            [OnError (JString (T "No response body from server."))
               assistantId]
        | Some (chunks, fin) =>
            read_loop hasOnAbort assistantId new_TextDecoder [] chunks fin
        end
  end.

End Framer.

(** ** The chat proxy: [api/chat.ts] *)

(** *** Model resolver tables *)

Definition FAMILY_ALIASES : gmap text (list text) :=
  list_to_map [
    (T "mistral-small-latest", [T "mistral-small-latest"; T "mistral-small"]);
    (T "mistral-medium-latest", [T "mistral-medium-latest"; T "mistral-medium"]);
    (T "mistral-large-latest", [T "mistral-large-latest"; T "mistral-large"]);
    (T "codestral-latest", [T "codestral-latest"; T "codestral"]);
    (T "pixtral-large-latest", [T "pixtral-large-latest"; T "pixtral-large"]);
    (T "magistral-small-latest",
      [T "magistral-small-latest"; T "magistral-small"]);
    (T "magistral-medium-latest",
      [T "magistral-medium-latest"; T "magistral-medium"]);
    (T "magistral-latest",
      [T "magistral-medium-latest"; T "magistral-small-latest";
       T "magistral-medium"; T "magistral-small"]);
    (T "devstral-small-latest",
      [T "devstral-small-latest"; T "devstral-small"]);
    (T "devstral-medium-latest",
      [T "devstral-medium-latest"; T "devstral-medium"]);
    (T "devstral-latest",
      [T "devstral-medium-latest"; T "devstral-small-latest";
       T "devstral-medium"; T "devstral-small"])
  ].

Definition PREFER_CHAT_names : list text :=
  [ T "mistral-small-latest"; T "mistral-small";
    T "mistral-medium-latest"; T "mistral-medium";
    T "mistral-large-latest"; T "mistral-large";
    T "codestral-latest"; T "codestral";
    T "pixtral-large-latest"; T "pixtral-large";
    T "magistral-small-latest"; T "magistral-small";
    T "magistral-medium-latest"; T "magistral-medium";
    T "magistral-latest";
    T "devstral-small-latest"; T "devstral-small";
    T "devstral-medium-latest"; T "devstral-medium";
    T "devstral-latest"
  ].

(** [new Set([...])] *)
Definition PREFER_CHAT : gset text := list_to_set PREFER_CHAT_names.

(** [FAMILY_ALIASES] is an object literal, so [FAMILY_ALIASES[model]] also
    finds what every object inherits from [Object.prototype]: these names.
    Each of them reads as a function, or for [__proto__] as the prototype
    object itself: a truthy value that is not iterable. *)
Definition Object_prototype_names : gset text :=
  list_to_set [
    T "constructor"; T "__defineGetter__"; T "__defineSetter__";
    T "hasOwnProperty"; T "__lookupGetter__"; T "__lookupSetter__";
    T "isPrototypeOf"; T "propertyIsEnumerable"; T "toString"; T "valueOf";
    T "__proto__"; T "toLocaleString"
  ].

(** The value of [FAMILY_ALIASES[model]]. *)
Inductive AliasLookup :=
| OwnEntry (candidates : list text)
| InheritedMember
| Undefined.

Definition FAMILY_ALIASES_get (model : text) : AliasLookup :=
  match FAMILY_ALIASES !! model with
  | Some candidates => OwnEntry candidates
  | None =>
      if bool_decide (model ∈ Object_prototype_names) then InheritedMember
      else Undefined
  end.

(** [const families = FAMILY_ALIASES[model] || [model]]: the array the loop
    runs over, or [None] when the value cannot be iterated. *)
Definition families (model : text) : option (list text) :=
  match FAMILY_ALIASES_get model with
  | OwnEntry candidates => Some candidates
  | InheritedMember => None
  | Undefined => Some [model]
  end.

(** ["chat" | "conv"] *)
Inductive Which := chat | conv.

(** [PREFER_CHAT.has(candidate) ? ["chat", "conv"] : ["conv", "chat"]] *)
Definition order (candidate : text) : list Which :=
  if bool_decide (candidate ∈ PREFER_CHAT) then [chat; conv] else [conv; chat].

(** *** Request payload *)

Inductive MessageRole := system | user | assistant.

Inductive VisionContentItem :=
| TextItem (text_ : text)
| ImageUrlItem (image_url : text).

(** [string | VisionContentItem[]] *)
Inductive MessageContent :=
| StringContent (s : text)
| VisionContent (items : list VisionContentItem).

Record ChatMessagePayload := {
  role : MessageRole;
  content : MessageContent
}.

(** [typeof m.content === "string"] *)
Definition has_string_content (m : ChatMessagePayload) : bool :=
  match content m with StringContent _ => true | VisionContent _ => false end.

(** [chatMessages] as first built, before the attachments are merged in.
    ([m &&] holds of every message object.) *)
Definition chatMessages (instructions : text)
    (messages : list ChatMessagePayload) : list ChatMessagePayload :=
  (if is_empty instructions then []
   else [{| role := system; content := StringContent instructions |}])
  ++ List.map (fun m => {| role := role m; content := content m |})
       (List.filter has_string_content messages).

(** *** Upstream calls *)

Section Proxy.
Context {rt : JsRuntime}.

(** How the iteration over a body stream finishes: it ends, or it throws
    (the upstream connection breaks). *)
Inductive BodyEnd :=
| BodyEnds
| BodyThrows (error : Thrown).

(** The response of an upstream [fetch]. *)
Record UpstreamResponse := {
  up_status : N;
  (** [response.headers.get("Content-Type")] *)
  up_content_type : option text;
  (** [await response.text()]; [None] when it rejects *)
  up_text : option text;
  (** [response.body] as the relay loop meets it: the chunks that
      [for await (const chunk of Readable.fromWeb(response.body))] yields
      and how the iteration finishes; [None] when there is no body.  When
      the iteration ends, the bytes of the chunks are the bytes of the
      upstream body. *)
  up_body : option (list (list byte) * BodyEnd)
}.

Definition up_ok (response : UpstreamResponse) : bool :=
  (200 <=? up_status response) && (up_status response <=? 299).

Inductive Fetched :=
| Rejects (error : Thrown)
| Resolves (response : UpstreamResponse).

Record CallResult := {
  ok : bool;
  streamable : bool;
  response : UpstreamResponse;
  errorText : text
}.

Definition parseUpstreamError (txt : text) : text :=
  match JSON_parse txt with
  | Some j =>
      match when_truthy (opt_prop j (T "error")) with
      | Some (JString s) => s
      | Some e => JSON_stringify e
      | None => []
      end
  | None => []
  end.

(** [await response.text().catch(() => "")] *)
Definition text_or_empty (response : UpstreamResponse) : text :=
  default [] (up_text response).

(** [ct.toLowerCase().includes("text/event-stream")] *)
Definition is_event_stream (response : UpstreamResponse) : bool :=
  let ct := default [] (up_content_type response) in
  includes (toLowerCase ct) (T "text/event-stream").

(** [callChatCompletions], from the outcome of its [fetch] on: what it
    throws ([inl]) or returns ([inr]). *)
Definition callChatCompletions (fetched : Fetched) : Thrown + CallResult :=
  match fetched with
  | Rejects error => inl error
  | Resolves response =>
      if negb (up_ok response) then
        let txt := text_or_empty response in
        let err :=
          text_or (parseUpstreamError txt)
            (text_or txt
               (T "chat/completions upstream error: "
                  ++ N_to_text (up_status response))) in
        inr {| ok := false; streamable := false; response := response;
               errorText := err |}
      else if negb (is_event_stream response) then
        let txt := text_or_empty response in
        let err :=
          text_or (parseUpstreamError txt)
            (text_or txt (T "chat/completions did not return SSE")) in
        inr {| ok := false; streamable := false; response := response;
               errorText := err |}
      else
        inr {| ok := true; streamable := true; response := response;
               errorText := [] |}
  end.

Definition callConversations (fetched : Fetched) : Thrown + CallResult :=
  match fetched with
  | Rejects error => inl error
  | Resolves response =>
      if negb (up_ok response) then
        let txt := text_or_empty response in
        let err :=
          text_or (parseUpstreamError txt)
            (text_or txt
               (T "conversations upstream error: "
                  ++ N_to_text (up_status response))) in
        inr {| ok := false; streamable := false; response := response;
               errorText := err |}
      else if negb (is_event_stream response) then
        let txt := text_or_empty response in
        let err :=
          text_or (parseUpstreamError txt)
            (text_or txt (T "conversations did not return SSE")) in
        inr {| ok := false; streamable := false; response := response;
               errorText := err |}
      else
        inr {| ok := true; streamable := true; response := response;
               errorText := [] |}
  end.

(** [error instanceof Error ? error.message : String(error)] *)
Definition thrown_text (error : Thrown) : text :=
  match error with
  | AbortError message => message
  | ErrorObject message => message
  | OtherThrown as_string => as_string
  end.

(** *** The dispatcher loop of [handler] *)

(** The upstream, as the handler meets it: what the [fetch] of the request
    number [n] (counted from 0) to the endpoint [which] for the model
    [candidate] comes to. *)
Definition Upstream := nat -> Which -> text -> Fetched.

(** The loop variables: the requests issued so far, oldest first, and
    [lastErrorText]; and the state of [res]: [written] is [None] as long as
    no chunk has been written (the headers are not sent yet), and then holds
    the bytes written so far. *)
Record Loop := {
  issued : list (Which * text);
  lastErrorText : text;
  written : option (list byte)
}.

(** [res.write(chunk)] for each of the [chunks]. *)
Definition write_all (written : option (list byte))
    (chunks : list (list byte)) : option (list byte) :=
  match chunks with
  | [] => written
  | _ :: _ => Some (default [] written ++ List.concat chunks)
  end.

(** One turn of the inner loop.  [inl]: the handler has relayed the body to
    its end, called [res.end()] and returns; the bytes are those written to
    the caller.  [inr]: the loop goes on.  The relay is inside the [try]:
    when [setSseHeaders] or the iteration over the body throws, the [catch]
    records the message and the loop goes on, with what was written so
    far.  (The caller stays connected: [res.destroyed] is false.) *)
Definition attempt (upstream : Upstream) (candidate : text) (which : Which)
    (st : Loop) : (list (Which * text) * list byte) + Loop :=
  let fetched := upstream (length (issued st)) which candidate in
  let issued' := issued st ++ [(which, candidate)] in
  match (match which with
         | chat => callChatCompletions fetched
         | conv => callConversations fetched
         end) with
  | inl error =>
      inr {| issued := issued'; lastErrorText := thrown_text error;
             written := written st |}
  | inr r =>
      match (if ok r && streamable r then up_body (response r) else None) with
      | Some (chunks, fin) =>
          match written st, headers_sent_error with
          | Some _, Some message =>
              (* [setSseHeaders(res)] throws *)
              inr {| issued := issued'; lastErrorText := message;
                     written := written st |}
          | _, _ =>
              let written' := write_all (written st) chunks in
              match fin with
              | BodyEnds => inl (issued', default [] written')
              | BodyThrows error =>
                  inr {| issued := issued';
                         lastErrorText := thrown_text error;
                         written := written' |}
              end
          end
      | None =>
          inr {| issued := issued';
                 lastErrorText := text_or (errorText r) (lastErrorText st);
                 written := written st |}
      end
  end.

Fixpoint for_order (upstream : Upstream) (candidate : text)
    (whiches : list Which) (st : Loop)
  : (list (Which * text) * list byte) + Loop :=
  match whiches with
  | [] => inr st
  | which :: rest =>
      match attempt upstream candidate which st with
      | inl done => inl done
      | inr st' => for_order upstream candidate rest st'
      end
  end.

Fixpoint for_families (upstream : Upstream) (candidates : list text)
    (st : Loop) : (list (Which * text) * list byte) + Loop :=
  match candidates with
  | [] => inr st
  | candidate :: rest =>
      match for_order upstream candidate (order candidate) st with
      | inl done => inl done
      | inr st' => for_families upstream rest st'
      end
  end.

(** [model = "mistral-small-latest"] in the destructuring of the payload *)
Definition requested (model : option text) : text :=
  default (T "mistral-small-latest") model.

Definition generic_failure : text :=
  T "Upstream streaming failed for selected model".

(** What the caller gets. *)
Inductive Reply :=
(** status 200 with the event-stream headers and [res.end()]; the bytes
    written, for a caller that stays connected *)
| Relayed (bytes : list byte)
(** status 502 with the JSON body [{ error }] *)
| BadGateway (error : text)
(** the handler throws a TypeError: [families] is not iterable *)
| NotIterable
(** a relay broke off after chunks with these bytes had been written under
    status 200, and no later attempt was relayed to its end: the handler
    finishes with the call [res.status(502).json({ error })] on the response
    it has already started (which Node refuses) *)
| Truncated (bytes : list byte) (error : text).

Record Run := {
  requests : list (Which * text);
  reply : Reply
}.

(** [handler], from the destructured payload on ([model] is [None] when the
    payload has none), for a POST with the API key configured. *)
Definition handler (model : option text) (upstream : Upstream) : Run :=
  let model := requested model in
  match families model with
  | None => {| requests := []; reply := NotIterable |}
  | Some candidates =>
      match for_families upstream candidates
              {| issued := []; lastErrorText := []; written := None |} with
      | inl (reqs, bytes) => {| requests := reqs; reply := Relayed bytes |}
      | inr st =>
          let error := text_or (lastErrorText st) generic_failure in
          {| requests := issued st;
             reply := match written st with
                      | None => BadGateway error
                      | Some bytes => Truncated bytes error
                      end |}
      end
  end.

End Proxy.

(** *** Vocabulary of the properties *)

(** The (which, candidate) pairs the two nested loops of [handler] run
    through, in order. *)
Definition attempts (candidates : list text) : list (Which * text) :=
  List.flat_map (fun candidate =>
                   List.map (fun which => (which, candidate)) (order candidate))
    candidates.

Section Attempts.
Context {rt : JsRuntime}.

Definition call (which : Which) (fetched : Fetched) : Thrown + CallResult :=
  match which with
  | chat => callChatCompletions fetched
  | conv => callConversations fetched
  end.

(** A failed attempt: a transport exception, a non-2xx status, or a 2xx
    status without an event-stream content type. *)
Definition fails (fetched : Fetched) : bool :=
  match fetched with
  | Rejects _ => true
  | Resolves response => negb (up_ok response) || negb (is_event_stream response)
  end.

(** An attempt the loop moves on from: it fails, or it is an event-stream
    response that has no body. *)
Definition declined (fetched : Fetched) : bool :=
  match fetched with
  | Rejects _ => true
  | Resolves response =>
      negb (up_ok response) || negb (is_event_stream response)
      || match up_body response with Some _ => false | None => true end
  end.

(** The text an attempt the loop moves on from leaves in [lastErrorText],
    given the text [earlier] that was there. *)
Definition recorded (which : Which) (fetched : Fetched) (earlier : text)
  : text :=
  match call which fetched with
  | inl error => thrown_text error
  | inr r => text_or (errorText r) earlier
  end.

(** An attempt whose relay breaks off: a 2xx status, an event-stream
    content type, and a body whose iteration throws. *)
Definition breaks_off (fetched : Fetched) : bool :=
  match fetched with
  | Rejects _ => false
  | Resolves response =>
      up_ok response && is_event_stream response
      && match up_body response with
         | Some (_, BodyThrows _) => true
         | _ => false
         end
  end.

(** An attempt that is not relayed to its end although the response can
    be set up: it is declined, or its relay breaks off. *)
Definition passed_over (fetched : Fetched) : bool :=
  declined fetched || breaks_off fetched.

(** [setSseHeaders(res)] can be called: no chunk has been written yet, or
    the response object accepts headers after that. *)
Definition unblocked (st : Loop) : Prop :=
  written st = None \/ headers_sent_error = None.

(** A 2xx status with an event-stream content type. *)
Definition streams (fetched : Fetched) : bool :=
  match fetched with
  | Rejects _ => false
  | Resolves response => up_ok response && is_event_stream response
  end.

(** The error text of an attempt: the message of what the call throws, or
    the [errorText] it returns. *)
Definition error_text (which : Which) (fetched : Fetched) : text :=
  match call which fetched with
  | inl error => thrown_text error
  | inr r => errorText r
  end.

(** The requests number [k], [k+1], ... to an upstream, one for each of
    the [pairs], all come to an outcome that satisfies [p]. *)
Fixpoint all_from (p : Fetched -> bool) (upstream : Upstream) (k : nat)
    (pairs : list (Which * text)) : bool :=
  match pairs with
  | [] => true
  | (which, candidate) :: rest =>
      p (upstream k which candidate) && all_from p upstream (S k) rest
  end.

(** The two loops as one loop over [attempts]. *)
Fixpoint run_attempts (upstream : Upstream) (pairs : list (Which * text))
    (st : Loop) : (list (Which * text) * list byte) + Loop :=
  match pairs with
  | [] => inr st
  | (which, candidate) :: rest =>
      match attempt upstream candidate which st with
      | inl done => inl done
      | inr st' => run_attempts upstream rest st'
      end
  end.

End Attempts.

(** The tokens of a sequence of callback calls. *)
Definition tokens_of {rt : JsRuntime} (calls : list Callback) : list text :=
  List.flat_map (fun c => match c with OnToken chunk _ => [chunk] | _ => [] end)
    calls.

(** The [assistantId] argument of a call. *)
Definition assistantId_of {rt : JsRuntime} (c : Callback) : text :=
  match c with
  | OnStart a | OnToken _ a | OnDone a | OnError _ a | OnAbort a => a
  end.

Definition is_OnStart {rt : JsRuntime} (c : Callback) : bool :=
  match c with OnStart _ => true | _ => false end.

(** *** A small runtime, to run the definitions on concrete inputs *)

Definition dq : string := String (ascii_of_N 34) EmptyString.
Definition quoted (s : string) : string := (dq ++ s ++ dq)%string.

(** [{"type":"message.output.delta","content":"ab"}] *)
Definition delta_ab_json : string :=
  ("{" ++ quoted "type" ++ ":" ++ quoted "message.output.delta" ++ ","
       ++ quoted "content" ++ ":" ++ quoted "ab" ++ "}")%string.

(** [{"type":"conversation.response.done"}] *)
Definition done_json : string :=
  ("{" ++ quoted "type" ++ ":" ++ quoted "conversation.response.done" ++ "}")%string.

(** [{"choices":[{"delta":{"content":"x"}}]}] *)
Definition choices_x_json : string :=
  ("{" ++ quoted "choices" ++ ":[{" ++ quoted "delta" ++ ":{"
       ++ quoted "content" ++ ":" ++ quoted "x" ++ "}}]}")%string.

Definition delta_event {num : Type} (content_ : text) : JValue num :=
  JObject [(T "type", JString (T "message.output.delta"));
           (T "content", JString content_)].

Definition done_event {num : Type} : JValue num :=
  JObject [(T "type", JString (T "conversation.response.done"))].

(** [{choices:[{delta:{content}}]}] *)
Definition choices_event {num : Type} (content_ : JValue num) : JValue num :=
  JObject [(T "choices",
            JArray [JObject [(T "delta", JObject [(T "content", content_)])]])].

(** [[{text:x},{text:y}]] *)
Definition segments {num : Type} (x y : text) : JValue num :=
  JArray [JObject [(T "text", JString x)]; JObject [(T "text", JString y)]].

Definition sample_parse (s : text) : option (JValue N) :=
  if text_eqb s (T delta_ab_json) then Some (delta_event (T "ab"))
  else if text_eqb s (T done_json) then Some done_event
  else if text_eqb s (T choices_x_json) then
    Some (choices_event (JString (T "x")))
  else None.

Definition ascii_lower (c : N) : N :=
  if (65 <=? c) && (c <=? 90) then c + 32 else c.

Definition sample_runtime : JsRuntime :=
  {| num := N;
     num_truthy := fun n => negb (n =? 0);
     num_toString := N_to_text;
     JSON_parse := sample_parse;
     JSON_stringify := fun _ => T "{}";
     toLowerCase := List.map ascii_lower;
     cannot_convert := T "Cannot convert object to primitive value";
     headers_sent_error :=
       Some (T "Cannot set headers after they are sent to the client") |}.

(** ["data: " + json + "\n\n"] as bytes *)
Definition sse_frame (json : string) : list byte :=
  list_byte_of_string ("data: " ++ json)%string ++ [x0a; x0a].

(** *** Sample inputs *)

(** Status 500 with the body [body]. *)
Definition error_500 (body : text) : Fetched :=
  Resolves {| up_status := 500; up_content_type := None;
              up_text := Some body; up_body := None |}.

(** An event-stream response with the given status and body; the body is
    read to its end. *)
Definition event_stream (st : N) (body : option (list (list byte))) : Fetched :=
  Resolves {| up_status := st; up_content_type := Some (T "text/event-stream");
              up_text := None;
              up_body := option_map (fun chunks => (chunks, BodyEnds)) body |}.

(** An event-stream response with status 200 whose body yields [chunks] and
    then breaks with [error]. *)
Definition broken_stream (chunks : list (list byte)) (error : Thrown)
  : Fetched :=
  Resolves {| up_status := 200; up_content_type := Some (T "text/event-stream");
              up_text := None; up_body := Some (chunks, BodyThrows error) |}.

(** The first request comes to [first], every later one to [later]. *)
Definition first_then (first later : Fetched) : Upstream :=
  fun n _ _ => match n with O => first | S _ => later end.

(** *** The properties as the specification words them *)

Section Stated.
Context {rt : JsRuntime}.

(** The calls of [streamMistralReply] on a response with an ok status whose
    body yields [chunks] and then ends as [fin]. *)
Definition reply_to (preset : option text) (generated : text)
    (hasOnAbort : bool) (chunks : list (list byte)) (fin : ReadEnd)
  : list Callback :=
  streamMistralReply preset generated hasOnAbort
    (FetchResolves {| status := 200; res_text := TextRejects;
                      res_body := Some (chunks, fin) |}).

(** [response] with its body replaced by one that yields [chunks] and ends
    as [fin]. *)
Definition with_body (response : Response) (chunks : list (list byte))
    (fin : ReadEnd) : FetchOutcome :=
  FetchResolves {| status := status response;
                   res_text := res_text response;
                   res_body := Some (chunks, fin) |}.

(** A call that is not [onStart] and carries [assistantId]. *)
Definition after_start (assistantId : text) (c : Callback) : Prop :=
  is_OnStart c = false /\ assistantId_of c = assistantId.

(** "Given all N attempts fail, the aggregated error message must equal
    the error text of attempt N." *)
Definition reports_last_error (upstream : Upstream) (model : option text)
  : Prop :=
  forall (candidates : list text) (which : Which) (candidate : text),
    families (requested model) = Some candidates ->
    all_from fails upstream 0 (attempts candidates) = true ->
    last (attempts candidates) = Some (which, candidate) ->
    reply (handler model upstream) =
      BadGateway
        (error_text which
           (upstream (length (attempts candidates) - 1)%nat which candidate)).

(** "Attempts 1..N-1 fail and attempt N returns 2xx + event-stream content
    type: the dispatcher relays attempt N's body and issues no attempt
    N+1."  ([n] counts from 0.) *)
Definition relays_first_stream (upstream : Upstream) (model : option text)
  : Prop :=
  forall (candidates : list text) (n : nat) (which : Which)
         (candidate : text),
    families (requested model) = Some candidates ->
    attempts candidates !! n = Some (which, candidate) ->
    all_from fails upstream 0 (take n (attempts candidates)) = true ->
    streams (upstream n which candidate) = true ->
    exists body : list byte,
      handler model upstream =
        {| requests := take (S n) (attempts candidates);
           reply := Relayed body |}.

End Stated.

(** ** More of the stream framer *)

(** [onError] and [onAbort]: the calls after which the source returns. *)
Definition ends_run {rt : JsRuntime} (c : Callback) : bool :=
  match c with OnError _ _ | OnAbort _ => true | _ => false end.

(** [onDone], [onError] and [onAbort]: the calls that tell the caller the
    reply is over. *)
Definition is_final {rt : JsRuntime} (c : Callback) : bool :=
  match c with OnDone _ | OnError _ _ | OnAbort _ => true | _ => false end.

(** Nothing stalls: the fetch settles, and so does the read of the error
    text or of the body. *)
Definition never_stalls (fetched : FetchOutcome) : bool :=
  match fetched with
  | FetchStalls => false
  | FetchRejects _ => true
  | FetchResolves res =>
      if negb (res_ok res) then
        match res_text res with TextStalls => false | _ => true end
      else
        match res_body res with
        | Some (_, ReadStalls) => false
        | _ => true
        end
  end.

(** Calls that do not end the run, then at most one call. *)
Definition ends_at_most_once {rt : JsRuntime} (calls : list Callback) : Prop :=
  exists (pre tail : list Callback),
    calls = pre ++ tail
    /\ Forall (fun c => ends_run c = false) pre
    /\ (length tail <= 1)%nat.

(** A line: a string without a line terminator. *)
Definition plain_line (l : text) : bool :=
  forallb (fun c => negb (c =? LF) && negb (c =? CR)) l.

(** ** The attachment block of [handler]: [api/chat.ts] *)

(** *** Message content helpers of [api/chat.ts] *)

Definition item_text (item : VisionContentItem) : text :=
  match item with
  | TextItem t => t
  | ImageUrlItem _ => T "[image]"
  end.

Definition stringifyContent (content : MessageContent) : text :=
  match content with
  | StringContent s => s
  | VisionContent items => trim (join [LF] (List.map item_text items))
  end.

Definition mergeWithAdditionalText (content : MessageContent) (extra : text)
  : MessageContent :=
  if is_empty extra then content
  else match content with
       | StringContent s => StringContent (s ++ extra)
       | VisionContent items => VisionContent (items ++ [TextItem extra])
       end.

Definition toVisionContent (message : ChatMessagePayload) (extra : text)
  : list VisionContentItem :=
  match content message with
  | StringContent s => [TextItem (s ++ extra)]
  | VisionContent items =>
      if is_empty extra then items else items ++ [TextItem extra]
  end.

(** [{ role, content: string }] *)
Record ConversationInput := {
  input_role : MessageRole;
  input_content : text
}.

(** [convInputs] *)
Definition convInputs (messages : list ChatMessagePayload)
  : list ConversationInput :=
  List.map (fun m =>
              {| input_role := role m;
                 input_content :=
                   match content m with
                   | StringContent s => s
                   | VisionContent _ => stringifyContent (content m)
                   end |})
    messages.

(** *** Extraction helpers *)

Definition MAX_CHARS_PER_FILE : N := 60000.
Definition MAX_TOTAL_ATTACHMENT_CHARS : N := 180000.

(** [s.replace(/\r/g, "")] *)
Definition remove_CR (s : text) : text :=
  List.filter (fun c => negb (c =? CR)) s.

Definition is_blank (c : N) : bool := (c =? 32) || (c =? 9).

(** [s.replace(/[ \t]+\n/g, "\n")]: a run of spaces and tabs that a newline
    follows is removed; [pending] is the run read so far. *)
Fixpoint strip_blanks_before_LF (pending s : text) : text :=
  match s with
  | [] => pending
  | c :: r =>
      if is_blank c then strip_blanks_before_LF (pending ++ [c]) r
      else if c =? LF then LF :: strip_blanks_before_LF [] r
      else pending ++ c :: strip_blanks_before_LF [] r
  end.

(** [s.replace(/\n{3,}/g, "\n\n")]: of a run of newlines only the first two
    stay; [run] counts the newlines of the current run read so far. *)
Fixpoint collapse_LF (run : nat) (s : text) : text :=
  match s with
  | [] => []
  | c :: r =>
      if c =? LF then
        if (run <? 2)%nat then LF :: collapse_LF (S run) r
        else collapse_LF (S run) r
      else c :: collapse_LF 0 r
  end.

Definition normalizeWhitespace (s : text) : text :=
  trim (collapse_LF 0 (strip_blanks_before_LF [] (remove_CR s))).

Section Attachments.

(** [n.toLocaleString()], which depends on the locale of the process. *)
Variable toLocaleString : N -> text.

(** The text that [await extractTextFromFile(data, mimeType, filename)]
    gives; it catches what its parsers throw. *)
Variable extractTextFromFile : text -> text -> text -> text.

Definition text_length (s : text) : N := N.of_nat (length s).

(** [s.slice(0, n)] *)
Definition slice_to (n : N) (s : text) : text := take (N.to_nat n) s.

Definition truncateForModel (s : text) (filename : option text) : text :=
  if text_length s <=? MAX_CHARS_PER_FILE then s
  else
    slice_to MAX_CHARS_PER_FILE s
    ++ [LF; LF] ++ T "[...truncated "
    ++ toLocaleString (text_length s - MAX_CHARS_PER_FILE)
    ++ T " chars from " ++ default (T "file") filename ++ T "]".

Record Attachment := {
  att_type : text;
  att_data : text;
  att_filename : text;
  att_mimeType : text
}.

(** [(att?.mimeType || "").startsWith('image/')] *)
Definition is_image (att : Attachment) : bool :=
  startsWith (att_mimeType att) (T "image/").

(** The [chunk] built for one text attachment. *)
Definition chunk_of (attachment : Attachment) : text :=
  let rawText :=
    extractTextFromFile (att_data attachment) (att_mimeType attachment)
      (att_filename attachment) in
  let safe :=
    truncateForModel (normalizeWhitespace rawText)
      (Some (att_filename attachment)) in
  [LF; LF] ++ T "--- Content from " ++ att_filename attachment ++ T " ---"
  ++ [LF] ++ safe
  ++ [LF] ++ T "--- End of " ++ att_filename attachment ++ T " ---".

Definition omitted_marker : text :=
  [LF; LF] ++ T "[...additional attachment content omitted due to length cap]".

Record Extracted := {
  extractedText : text;
  totalChars : N
}.

(** [for (const attachment of textAttachments) { ... }], with its [break]. *)
Fixpoint extract_loop (attachments : list Attachment) (st : Extracted)
  : Extracted :=
  match attachments with
  | [] => st
  | attachment :: rest =>
      let chunk := chunk_of attachment in
      if MAX_TOTAL_ATTACHMENT_CHARS <? totalChars st + text_length chunk then
        let room := N.max 0 (MAX_TOTAL_ATTACHMENT_CHARS - totalChars st) in
        if 0 <? room then
          {| extractedText :=
               extractedText st ++ slice_to room chunk ++ omitted_marker;
             totalChars := MAX_TOTAL_ATTACHMENT_CHARS |}
        else st
      else
        extract_loop rest
          {| extractedText := extractedText st ++ chunk;
             totalChars := totalChars st + text_length chunk |}
  end.

Definition is_user (m : ChatMessagePayload) : bool :=
  match role m with user => true | _ => false end.

(** [chatMessages.filter((m) => m.role === "user").pop()] *)
Definition lastUserMessage (chatMessages : list ChatMessagePayload)
  : option ChatMessagePayload :=
  last (List.filter is_user chatMessages).

(** [chatMessages.lastIndexOf(lastUserMessage)]: the search is by object
    identity, and the object found above is the last one with the role
    "user"; [None] stands for -1. *)
Fixpoint lastIndexOf_user (chatMessages : list ChatMessagePayload)
  : option nat :=
  match chatMessages with
  | [] => None
  | m :: rest =>
      match lastIndexOf_user rest with
      | Some i => Some (S i)
      | None => if is_user m then Some O else None
      end
  end.

(** [chatMessages[lastIndex] = { ...lastUserMessage, content }] *)
Definition replace_last_user (chatMessages : list ChatMessagePayload)
    (lastUser : ChatMessagePayload) (content_ : MessageContent)
  : list ChatMessagePayload :=
  match lastIndexOf_user chatMessages with
  | Some lastIndex =>
      <[lastIndex := {| role := role lastUser; content := content_ |}]>
        chatMessages
  | None => chatMessages
  end.

(** [chatMessages.push({ role: "user", content: extractedText.trim() })] *)
Definition push_extracted (chatMessages : list ChatMessagePayload)
    (extracted : text) : list ChatMessagePayload :=
  chatMessages ++ [{| role := user; content := StringContent (trim extracted) |}].

(** [`data:${attachment.mimeType};base64,${attachment.data}`] *)
Definition image_item (attachment : Attachment) : VisionContentItem :=
  ImageUrlItem (T "data:" ++ att_mimeType attachment ++ T ";base64,"
                ++ att_data attachment).

Definition image_note (count : nat) (model : text) : text :=
  [LF; LF] ++ T "[Note: " ++ N_to_text (N.of_nat count)
  ++ T " image file(s) attached but current model (" ++ model
  ++ T ") doesn't support image analysis. Switch to pixtral-large-latest for image understanding.]".

(** The block [if (attachments.length > 0) { ... }] of [handler]: the
    [chatMessages] it leaves. *)
Definition merge_attachments (model : text)
    (chatMessages : list ChatMessagePayload) (attachments : list Attachment)
  : list ChatMessagePayload :=
  match attachments with
  | [] => chatMessages
  | _ :: _ =>
      let imageAttachments := List.filter is_image attachments in
      let textAttachments :=
        List.filter (fun att => negb (is_image att)) attachments in
      let extracted :=
        extractedText
          (extract_loop textAttachments
             {| extractedText := []; totalChars := 0 |}) in
      let has_images := negb (length imageAttachments =? 0)%nat in
      let pixtral := includes model (T "pixtral") in
      let merged :=
        if has_images && pixtral then
          match lastUserMessage chatMessages with
          | Some lastUser =>
              replace_last_user chatMessages lastUser
                (VisionContent
                   (toVisionContent lastUser extracted
                    ++ List.map image_item imageAttachments))
          | None =>
              if is_empty extracted then chatMessages
              else push_extracted chatMessages extracted
          end
        else if is_empty extracted then chatMessages
        else
          match lastUserMessage chatMessages with
          | Some lastUser =>
              replace_last_user chatMessages lastUser
                (mergeWithAdditionalText (content lastUser) extracted)
          | None => push_extracted chatMessages extracted
          end in
      if has_images && negb pixtral then
        match lastUserMessage merged with
        | Some lastUser =>
            replace_last_user merged lastUser
              (mergeWithAdditionalText (content lastUser)
                 (image_note (length imageAttachments) model))
        | None => merged
        end
      else merged
  end.

End Attachments.

(** What holds of [extractedText] and [totalChars] as long as the cap has
    not cut in. *)
Definition in_step (st : Extracted) : Prop :=
  totalChars st = text_length (extractedText st)
  /\ totalChars st <= MAX_TOTAL_ATTACHMENT_CHARS.

(** ** The metrics store: [src/lib/metricsStore.ts] *)

(** [estimateTokensFromChars], on the integer character counts the callers
    pass. *)
Definition estimateTokensFromChars (charCount : Z) : Z :=
  if (charCount <=? 0)%Z then 0%Z
  else Z.max 1 ((charCount + 3) / 4)%Z.

Definition MAX_METRICS : nat := 200.

Section Metrics.
(** Clock readings and durations in milliseconds (JavaScript numbers). *)
Variable Millis : Type.

Record MistralCallMetric := {
  metric_id : text;
  metric_model : text;
  promptPreview : text;
  timestamp : Millis;
  durationMs : Millis;
  tokensEstimated : Z;
  success : bool
}.

(** [Omit<MistralCallMetric, "id"> & { id?: string }] *)
Record MetricInput := {
  given_id : option text;
  given_model : text;
  given_promptPreview : text;
  given_timestamp : Millis;
  given_durationMs : Millis;
  given_tokensEstimated : Z;
  given_success : bool
}.

(** [recordMistralMetric]: the new value of [metricsCache] ([persist] then
    writes it to the local storage and [notify] hands a copy to every
    listener).  [generated] is what [generateId("metric")] returns. *)
Definition recordMistralMetric (generated : text) (metric : MetricInput)
    (metricsCache : list MistralCallMetric) : list MistralCallMetric :=
  let entry :=
    {| metric_id := default generated (given_id metric);
       metric_model := given_model metric;
       promptPreview := given_promptPreview metric;
       timestamp := given_timestamp metric;
       durationMs := given_durationMs metric;
       tokensEstimated := given_tokensEstimated metric;
       success := given_success metric |} in
  take MAX_METRICS (entry :: metricsCache).

(** ** The evaluation runner: [src/lib/evalRunner.ts] *)

Context {rt : JsRuntime}.

Record EvalRunResult := {
  eval_model : text;
  eval_content : text;
  eval_durationMs : Millis;
  eval_tokensEstimated : Z
}.

(** How the promise of [runEvalForModel] is settled. *)
Inductive Settled :=
| Resolved (result : EvalRunResult)
| Rejected (message : text).

(** [buffer], the state of the promise, and the module's [metricsCache]. *)
Record EvalState := {
  buffer : text;
  settled : option Settled;
  metricsCache : list MistralCallMetric
}.

(** What the clock shows during the call number [k] of a callback:
    [Date.now()] and [performance.now() - start]; and the id generated for
    the metric recorded there. *)
Variable clock : nat -> Millis * Millis.
Variable metric_ids : nat -> text.

(** [resolve] and [reject]: a settled promise stays as it is.  The promise
    stays pending when neither is called. *)
Definition settle (st : EvalState) (outcome : Settled) : option Settled :=
  match settled st with
  | Some s => Some s
  | None => Some outcome
  end.

Definition eval_metric (prompt model : text) (k : nat) (tokens : Z)
    (ok_ : bool) : MetricInput :=
  {| given_id := None;
     given_model := model;
     given_promptPreview := T "[eval] " ++ take 120 prompt;
     given_timestamp := fst (clock k);
     given_durationMs := snd (clock k);
     given_tokensEstimated := tokens;
     given_success := ok_ |}.

(** The callbacks [runEvalForModel] passes, run on the call number [k].
    [new Error(errText)] converts [errText] to a string; when that throws,
    [onError] throws after the metric is recorded and [reject] is not
    called.  ([streamMistralReply] passes a value that is not a string only
    in its last call, for a response that is not ok.) *)
Definition eval_callback (prompt model : text) (k : nat) (st : EvalState)
    (c : Callback) : EvalState :=
  match c with
  | OnStart _ => st
  | OnToken chunk _ =>
      {| buffer := buffer st ++ chunk; settled := settled st;
         metricsCache := metricsCache st |}
  | OnDone _ =>
      let tokens :=
        estimateTokensFromChars
          (Z.of_nat (length prompt) + Z.of_nat (length (buffer st))) in
      {| buffer := buffer st;
         settled :=
           settle st
             (Resolved {| eval_model := model;
                          eval_content := trim (buffer st);
                          eval_durationMs := snd (clock k);
                          eval_tokensEstimated := tokens |});
         metricsCache :=
           recordMistralMetric (metric_ids k)
             (eval_metric prompt model k tokens true) (metricsCache st) |}
  | OnError errText _ =>
      {| buffer := buffer st;
         settled :=
           match js_String errText with
           | Some message => settle st (Rejected message)
           | None => settled st
           end;
         metricsCache :=
           recordMistralMetric (metric_ids k)
             (eval_metric prompt model k
                (estimateTokensFromChars (Z.of_nat (length prompt))) false)
             (metricsCache st) |}
  | OnAbort _ =>
      {| buffer := buffer st;
         settled := settle st (Rejected (T "Eval aborted"));
         metricsCache :=
           recordMistralMetric (metric_ids k)
             (eval_metric prompt model k
                (estimateTokensFromChars (Z.of_nat (length prompt))) false)
             (metricsCache st) |}
  end.

Fixpoint eval_calls (prompt model : text) (k : nat) (calls : list Callback)
    (st : EvalState) : EvalState :=
  match calls with
  | [] => st
  | c :: rest =>
      eval_calls prompt model (S k) rest (eval_callback prompt model k st c)
  end.

(** [runEvalForModel(prompt, model)]: the state its callbacks leave, given
    what the fetch of [streamMistralReply] comes to and the [metricsCache]
    it finds. *)
Definition runEvalForModel (prompt model generated : text)
    (fetched : FetchOutcome) (cache : list MistralCallMetric) : EvalState :=
  eval_calls prompt model 0
    (streamMistralReply None generated true fetched)
    {| buffer := []; settled := None; metricsCache := cache |}.

End Metrics.

(** ** Other exports of [src/lib/chatApi.ts] *)

Section Title.
Context {rt : JsRuntime}.

(** What [fetch(url, ...)] of the title endpoint comes to. *)
Inductive TitleFetched :=
| TitleRejects
| TitleResponse (ok_ : bool) (json : option value).

(** [generateSessionTitle]: the bodies of the requests it sends, before
    [JSON.stringify], and the value it resolves to.  [json] is the value of
    [await res.json()], [None] when that rejects. *)
Definition generateSessionTitle (prompt : option text)
    (fetch_title : value -> TitleFetched) : list value * option text :=
  let question := default [] (trim <$> prompt) in
  if is_empty question then ([], None)
  else
    let body := JObject [(T "prompt", JString question)] in
    ([body],
     match fetch_title body with
     | TitleRejects => None
     | TitleResponse false _ => None
     | TitleResponse true None => None
     | TitleResponse true (Some data) =>
         let title :=
           match opt_prop data (T "title") with
           | Some (JString s) => trim s
           | _ => []
           end in
         if is_empty title then None else Some title
     end).

End Title.

(** [s.split(sep)] for a separator of one code unit. *)
Fixpoint split_at (sep : N) (s : text) : list text :=
  match s with
  | [] => [[]]
  | c :: r => if c =? sep then [] :: split_at sep r
              else cons_head c (split_at sep r)
  end.

(** A [File] as [prepareAttachments] sees it: its name, its type, and the
    data URL that [FileReader.readAsDataURL] produces for it. *)
Record FileRead := {
  file_name : text;
  file_type : text;
  file_dataURL : text
}.

(** The object built for one file; [pa_data] is [undefined] ([None]) when
    the data URL has no comma. *)
Record PreparedAttachment := {
  pa_type : text;
  pa_data : option text;
  pa_filename : text;
  pa_mimeType : text
}.

(** [fileToBase64]: [(reader.result as string).split(",")[1]] *)
Definition fileToBase64 (file : FileRead) : option text :=
  split_at 44 (file_dataURL file) !! 1%nat.

(** [prepareAttachments], when every file can be read. *)
Definition prepareAttachments (files : list FileRead)
  : list PreparedAttachment :=
  List.map (fun file =>
              {| pa_type := default [] (split_at 47 (file_type file) !! 0%nat);
                 pa_data := fileToBase64 file;
                 pa_filename := file_name file;
                 pa_mimeType := file_type file |})
    files.

(** *** More sample inputs *)

(** An extractor that finds the text as it is in [data]. *)
Definition sample_extractTextFromFile (data mimeType filename : text) : text :=
  data.

Definition sample_image : Attachment :=
  {| att_type := T "image"; att_data := T "AAAA";
     att_filename := T "a.png"; att_mimeType := T "image/png" |}.

Definition sample_notes : Attachment :=
  {| att_type := T "text"; att_data := T "notes";
     att_filename := T "a.txt"; att_mimeType := T "text/plain" |}.

(** A clock that advances by one millisecond per callback. *)
Definition sample_clock (k : nat) : N * N :=
  (1000 + N.of_nat k, N.of_nat k).

Definition sample_metric_ids (k : nat) : text :=
  T "metric-" ++ N_to_text (N.of_nat k).

(** * Properties *)

(** ** Strings and the decoder *)

Lemma decode_stream_app (d : Utf8Decoder) (a b : list byte) :
  decode_stream d (a ++ b) =
  let '(d1, s1) := decode_stream d a in
  let '(d2, s2) := decode_stream d1 b in (d2, s1 ++ s2).
Proof.
  revert d. induction a as [|x a IH]; intros d; simpl.
  - destruct (decode_stream d b); reflexivity.
  - destruct (decode_byte d x) as [d1 s1]. rewrite IH.
    destruct (decode_stream d1 a) as [d2 s2].
    destruct (decode_stream d2 b) as [d3 s3].
    rewrite app_assoc. reflexivity.
Qed.

(** The two bytes of U+00E9 arriving in separate calls give the one code
    unit, as they do in a single call. *)
Example decode_split_character :
  snd (decode_stream (fst (decode_stream new_TextDecoder [xc3])) [xa9]) = [233]
  /\ snd (decode_stream new_TextDecoder [xc3]) = []
  /\ snd (decode_stream new_TextDecoder [xc3; xa9]) = [233].
Proof. repeat split. Qed.

Lemma cons_head_not_nil (c : N) (l : list text) : cons_head c l <> [].
Proof. destruct l; discriminate. Qed.

Lemma split_frames_not_nil (s : text) : split_frames s <> [].
Proof.
  destruct s as [|c [|c' r]]; cbn [split_frames]; try discriminate.
  destruct (_ && _); [discriminate | apply cons_head_not_nil].
Qed.

Lemma pop_rest_cons (p : text) (l : list text) :
  l <> [] -> pop_rest (p :: l) = p :: pop_rest l.
Proof. destruct l; [congruence | reflexivity]. Qed.

Lemma pop_last_cons (p : text) (l : list text) :
  l <> [] -> pop_last (p :: l) = pop_last l.
Proof. destruct l; [congruence | reflexivity]. Qed.

Lemma last_app_ne {A : Type} (l1 l2 : list A) (d : A) :
  l2 <> [] -> List.last (l1 ++ l2) d = List.last l2 d.
Proof.
  intros H. induction l1 as [|a l1 IH]; [reflexivity|].
  simpl. destruct (l1 ++ l2) eqn:E; [|exact IH].
  apply app_eq_nil in E. tauto.
Qed.

(** A string without the delimiter is its own single piece. *)
Lemma split_frames_single (s p : text) : split_frames s = [p] -> p = s.
Proof.
  revert p. induction s as [|c r IH]; intros p; simpl.
  - congruence.
  - destruct r as [|c' r'].
    + simpl. congruence.
    + destruct ((c =? LF) && (c' =? LF)).
      * pose proof (split_frames_not_nil r') as Hne.
        destruct (split_frames r'); [congruence | discriminate].
      * destruct (split_frames (c' :: r')) as [|q [|q' l]] eqn:E; simpl;
          try discriminate.
        -- exfalso. revert E. apply split_frames_not_nil.
        -- intros [= <-]. f_equal. apply IH. reflexivity.
Qed.

Lemma split_frames_step (c : N) (r : text) :
  match r with c' :: _ => (c =? LF) && (c' =? LF) = false | [] => True end ->
  split_frames (c :: r) = cons_head c (split_frames r).
Proof.
  destruct r as [|c' r']; [reflexivity|]. intros H. simpl. rewrite H.
  reflexivity.
Qed.

(** Splitting [s1 ++ s2] gives the complete frames of [s1], then the split
    of what [s1] left over followed by [s2]: where the buffer is cut does not
    matter, not even inside a delimiter. *)
Lemma split_frames_app (s1 s2 : text) :
  split_frames (s1 ++ s2) =
  pop_rest (split_frames s1)
    ++ split_frames (pop_last (split_frames s1) ++ s2).
Proof.
  remember (length s1) as n eqn:Hn. revert s1 Hn.
  induction n as [n IH] using lt_wf_ind. intros s1 Hn.
  destruct s1 as [|c r]; [reflexivity|].
  destruct r as [|c' r']; [reflexivity|].
  destruct ((c =? LF) && (c' =? LF)) eqn:D.
  - change (split_frames ((c :: c' :: r') ++ s2))
      with (split_frames (c :: c' :: (r' ++ s2))).
    cbn [split_frames]. rewrite D.
    rewrite pop_rest_cons, pop_last_cons by apply split_frames_not_nil.
    rewrite (IH (length r')) by (subst; simpl; lia || reflexivity).
    reflexivity.
  - rewrite (split_frames_step c (c' :: r')) by exact D.
    change ((c :: c' :: r') ++ s2) with (c :: ((c' :: r') ++ s2)).
    rewrite (split_frames_step c ((c' :: r') ++ s2)) by exact D.
    rewrite (IH (length (c' :: r'))) by (subst; simpl; lia || reflexivity).
    destruct (split_frames (c' :: r')) as [|p [|q l]] eqn:E.
    + exfalso. revert E. apply split_frames_not_nil.
    + apply split_frames_single in E. subst p.
      cbn [cons_head pop_rest pop_last List.removelast List.last app].
      symmetry. apply (split_frames_step c (c' :: r' ++ s2)). exact D.
    + reflexivity.
Qed.

(** A delimiter cut in the middle: the frame is found once the second
    newline has arrived. *)
Example split_inside_delimiter :
  split_frames (T "a" ++ [LF]) = [T "a" ++ [LF]]
  /\ split_frames ((T "a" ++ [LF]) ++ [LF] ++ T "b") = [T "a"; T "b"].
Proof. split; reflexivity. Qed.

(** ** The stream framer *)

Section FramerFacts.
Context {rt : JsRuntime}.

Lemma then_turn_assoc (a b c : Turn) :
  then_turn a (then_turn b c) = then_turn (then_turn a b) c.
Proof.
  destruct a as [x|x], b as [y|y], c as [z|z]; simpl;
    rewrite ?app_assoc; reflexivity.
Qed.

Lemma for_frames_app (assistantId : text) (frames1 frames2 : list text) :
  for_frames assistantId (frames1 ++ frames2) =
  then_turn (for_frames assistantId frames1)
    (for_frames assistantId frames2).
Proof.
  induction frames1 as [|f frames1 IH]; simpl.
  - destruct (for_frames assistantId frames2); reflexivity.
  - rewrite IH. apply then_turn_assoc.
Qed.

(** Two chunks read one after the other are read as their concatenation. *)
Lemma read_loop_merge (hasOnAbort : bool) (assistantId : text)
    (decoder : Utf8Decoder) (buffer : text) (c1 c2 : list byte)
    (rest : list (list byte)) (fin : ReadEnd) :
  read_loop hasOnAbort assistantId decoder buffer (c1 :: c2 :: rest) fin =
  read_loop hasOnAbort assistantId decoder buffer ((c1 ++ c2) :: rest) fin.
Proof.
  cbn [read_loop]. rewrite decode_stream_app.
  destruct (decode_stream decoder c1) as [d1 s1].
  destruct (decode_stream d1 c2) as [d2 s2].
  rewrite app_assoc, (split_frames_app (buffer ++ s1) s2).
  set (F1 := split_frames (buffer ++ s1)).
  set (F2 := split_frames (pop_last F1 ++ s2)).
  assert (HF2 : F2 <> []) by apply split_frames_not_nil.
  assert (Hrest : pop_rest (pop_rest F1 ++ F2) = pop_rest F1 ++ pop_rest F2).
  { unfold pop_rest. apply removelast_app. exact HF2. }
  assert (Hlast : pop_last (pop_rest F1 ++ F2) = pop_last F2).
  { unfold pop_last. apply last_app_ne. exact HF2. }
  rewrite Hrest, Hlast, for_frames_app.
  destruct (for_frames assistantId (pop_rest F1)) as [k1|k1]; simpl;
    [|reflexivity].
  destruct (for_frames assistantId (pop_rest F2)) as [k2|k2]; simpl.
  - rewrite app_assoc. reflexivity.
  - reflexivity.
Qed.

Lemma read_loop_concat (hasOnAbort : bool) (assistantId : text)
    (decoder : Utf8Decoder) (buffer : text) (c : list byte)
    (rest : list (list byte)) (fin : ReadEnd) :
  read_loop hasOnAbort assistantId decoder buffer (c :: rest) fin =
  read_loop hasOnAbort assistantId decoder buffer [c ++ List.concat rest] fin.
Proof.
  revert c. induction rest as [|c2 rest IH]; intros c.
  - simpl List.concat. rewrite app_nil_r. reflexivity.
  - rewrite read_loop_merge, IH. simpl List.concat.
    rewrite app_assoc. reflexivity.
Qed.

(** C4.  Chunking invariance: however the bytes of the response body are
    cut into chunks (inside a multi-byte character, inside the frame
    delimiter, with empty chunks, or with no chunk at all), the calls made
    on the callbacks, and so the tokens, are those made when all the bytes
    arrive as one chunk. *)
Theorem chunking_invariance (preset : option text) (generated : text)
    (hasOnAbort : bool) (response : Response)
    (chunks : list (list byte)) (fin : ReadEnd) :
  streamMistralReply preset generated hasOnAbort
    (with_body response chunks fin) =
  streamMistralReply preset generated hasOnAbort
    (with_body response [List.concat chunks] fin)
  /\ tokens_of (streamMistralReply preset generated hasOnAbort
                  (with_body response chunks fin)) =
     tokens_of (streamMistralReply preset generated hasOnAbort
                  (with_body response [List.concat chunks] fin)).
Proof.
  assert (H : streamMistralReply preset generated hasOnAbort
                (with_body response chunks fin) =
              streamMistralReply preset generated hasOnAbort
                (with_body response [List.concat chunks] fin)).
  { unfold with_body, streamMistralReply. f_equal.
    destruct (negb _); [reflexivity|]. cbn [res_body].
    destruct chunks as [|c rest].
    - reflexivity.
    - rewrite read_loop_concat. reflexivity. }
  split; [exact H | rewrite H; reflexivity].
Qed.

Lemma token_after_start (assistantId piece : text) :
  Forall (after_start assistantId) (token assistantId piece).
Proof.
  unfold token. destruct (is_empty piece); repeat constructor.
Qed.

Lemma on_frame_after_start (assistantId frame : text) :
  Forall (after_start assistantId) (turn_calls (on_frame assistantId frame)).
Proof.
  unfold on_frame. destruct (extractDataJsonFromFrame frame) as [evt|];
    [|constructor].
  destruct (truthy evt); [|constructor].
  unfold on_event.
  destruct (type_is evt _); [apply token_after_start|].
  destruct (type_is evt _); [repeat constructor|].
  destruct (when_truthy _); [repeat constructor|].
  unfold on_choices.
  destruct (prop evt _) as [[| | | |[|choice more]|]|]; try constructor.
  apply token_after_start.
Qed.

Lemma for_frames_after_start (assistantId : text) (frames : list text) :
  Forall (after_start assistantId)
    (turn_calls (for_frames assistantId frames)).
Proof.
  induction frames as [|f frames IH]; simpl; [constructor|].
  pose proof (on_frame_after_start assistantId f) as Hf.
  destruct (on_frame assistantId f) as [c|c]; simpl in *; [|exact Hf].
  destruct (for_frames assistantId frames) as [m|m]; simpl in *;
    apply Forall_app; split; assumption.
Qed.

Lemma read_loop_after_start (hasOnAbort : bool) (assistantId : text)
    (chunks : list (list byte)) (fin : ReadEnd) (decoder : Utf8Decoder)
    (buffer : text) :
  Forall (after_start assistantId)
    (read_loop hasOnAbort assistantId decoder buffer chunks fin).
Proof.
  revert decoder buffer.
  induction chunks as [|c chunks IH]; intros decoder buffer; simpl.
  - destruct fin as [|[m|m|s]|]; simpl; unfold call_onAbort;
      try destruct hasOnAbort; repeat constructor.
  - destruct (decode_stream decoder c) as [d' s].
    pose proof (for_frames_after_start assistantId
                  (pop_rest (split_frames (buffer ++ s)))) as Hf.
    destruct (for_frames assistantId _) as [k|k]; simpl in Hf.
    + apply Forall_app; split; [exact Hf | apply IH].
    + exact Hf.
Qed.

(** C10.  Whatever the fetch comes to (it rejects, it never settles, it
    resolves with a status that is not ok, without a body, or with a stream
    that ends, fails or stalls), the first
    call is [onStart], with the preset or else the generated assistant id;
    no later call is [onStart], and every later call carries that same
    id. *)
Theorem onStart_first_and_once (preset : option text) (generated : text)
    (hasOnAbort : bool) (fetched : FetchOutcome) :
  exists rest : list Callback,
    streamMistralReply preset generated hasOnAbort fetched =
      OnStart (default generated preset) :: rest
    /\ Forall (after_start (default generated preset)) rest.
Proof.
  unfold streamMistralReply. eexists; split; [reflexivity|].
  destruct fetched as [[m|m|s]|res|].
  - unfold call_onAbort. destruct hasOnAbort; repeat constructor.
  - repeat constructor.
  - repeat constructor.
  - destruct (negb (res_ok res));
      [destruct (res_text res); repeat constructor|].
    destruct (res_body res) as [[chunks fin]|]; [|repeat constructor].
    apply read_loop_after_start.
  - constructor.
Qed.

End FramerFacts.


(** Runs [reply_to] on concrete chunks: unfolds down to the read loop, then
    evaluates, using the given facts about [JSON.parse] one after the
    other. *)
Ltac enter_read_loop :=
  unfold reply_to, streamMistralReply;
  cbn [res_ok status res_body];
  change ((200 <=? 200) && (200 <=? 299)) with true;
  cbn [negb]; cbv zeta; f_equal.

Ltac run_with H1 H2 :=
  vm_compute in H1; vm_compute in H2;
  vm_compute; rewrite H1; vm_compute; rewrite H2; reflexivity.

Section FramerCases.
Context {rt : JsRuntime}.

(** C1.  A delta frame with content "ab", then the terminal frame, then
    the end of the stream: [onToken("ab")], then [onDone] twice.  The
    terminal frame is answered with [onDone] and [continue], so the loop
    keeps reading and the [onDone] after the loop is called as well. *)
Theorem terminal_frame_then_end_of_stream (preset : option text)
    (generated : text) (hasOnAbort : bool) :
  JSON_parse (T delta_ab_json) = Some (delta_event (T "ab")) ->
  JSON_parse (T done_json) = Some done_event ->
  reply_to preset generated hasOnAbort
    [sse_frame delta_ab_json; sse_frame done_json] EndOfStream =
  let assistantId := default generated preset in
  [OnStart assistantId; OnToken (T "ab") assistantId;
   OnDone assistantId; OnDone assistantId].
Proof.
  intros Hdelta Hdone. enter_read_loop.
  generalize (default generated preset) as assistantId. intros assistantId.
  destruct rt as [num nt ns parse strfy lower tmsg hdrs]. cbn in Hdelta, Hdone.
  run_with Hdelta Hdone.
Qed.

(** Frames that follow the terminal frame are still processed: their
    tokens come after the first [onDone]. *)
Lemma frames_after_terminal_still_processed (preset : option text)
    (generated : text) (hasOnAbort : bool) :
  JSON_parse (T done_json) = Some done_event ->
  JSON_parse (T choices_x_json) = Some (choices_event (JString (T "x"))) ->
  reply_to preset generated hasOnAbort
    [sse_frame done_json ++ sse_frame choices_x_json] EndOfStream =
  let assistantId := default generated preset in
  [OnStart assistantId; OnDone assistantId; OnToken (T "x") assistantId;
   OnDone assistantId].
Proof.
  intros Hdone Hx. enter_read_loop.
  generalize (default generated preset) as assistantId. intros assistantId.
  destruct rt as [num nt ns parse strfy lower tmsg hdrs]. cbn in Hdone, Hx.
  run_with Hdone Hx.
Qed.

(** An [error] field ends the function: nothing is called after
    [onError], not even [onDone]. *)
Lemma error_event_returns (assistantId : text) (evt e : value) :
  type_is evt (T "message.output.delta") = false ->
  type_is evt (T "conversation.response.done") = false ->
  when_truthy (prop evt (T "error")) = Some e ->
  on_event assistantId evt =
    Return [OnError (JString (default cannot_convert (js_String e)))
              assistantId].
Proof. intros H1 H2 H3. unfold on_event. rewrite H1, H2, H3. reflexivity. Qed.

(** C8.  A frame whose event reaches the "Chat Completions-style" branch
    (it is not a conversation delta or terminal event and has no truthy
    [error]) with a non-empty [choices] array: the text of the first
    choice's [delta], or else [message], content is the one token, and no
    token is emitted when that text is empty.  A string content [x] gives
    [x]; the segments [{text:x}], [{text:y}] give [x ++ y]. *)
Theorem completions_token_extraction (assistantId frame : text)
    (evt choice : value) (more : list value) :
  extractDataJsonFromFrame frame = Some evt ->
  prop evt (T "choices") = Some (JArray (choice :: more)) ->
  type_is evt (T "message.output.delta") = false ->
  type_is evt (T "conversation.response.done") = false ->
  when_truthy (prop evt (T "error")) = None ->
  let piece :=
    extractTextFromDeltaContent (opt_prop (choice_delta choice) (T "content")) in
  on_frame assistantId frame =
    Continue (if is_empty piece then [] else [OnToken piece assistantId])
  /\ (forall x : text,
        choice = JObject [(T "delta", JObject [(T "content", JString x)])] ->
        piece = x)
  /\ (forall x y : text,
        choice = JObject [(T "delta", JObject [(T "content", segments x y)])] ->
        piece = x ++ y)
  /\ (forall x : text,
        choice = JObject [(T "message", JObject [(T "content", JString x)])] ->
        piece = x).
Proof.
  intros Hframe Hchoices Hdelta Hdone Herror piece.
  split; [|repeat split].
  - unfold on_frame. rewrite Hframe.
    assert (Ht : truthy evt = true).
    { destruct evt; try discriminate. reflexivity. }
    rewrite Ht. unfold on_event. rewrite Hdelta, Hdone, Herror.
    unfold on_choices. rewrite Hchoices. reflexivity.
  - intros x ->. subst piece. destruct rt. vm_compute. reflexivity.
  - intros x y ->. subst piece. destruct rt. vm_compute. reflexivity.
  - intros x ->. subst piece. destruct rt. vm_compute. reflexivity.
Qed.
End FramerCases.

(** The run of C1 in the sample runtime. *)
Lemma terminal_frame_then_end_of_stream_witness :
  reply_to (rt := sample_runtime) None (T "a1") true
    [sse_frame delta_ab_json; sse_frame done_json] EndOfStream =
  [OnStart (T "a1"); OnToken (T "ab") (T "a1"); OnDone (T "a1");
   OnDone (T "a1")].
Proof.
  apply (terminal_frame_then_end_of_stream (rt := sample_runtime)
           None (T "a1") true); vm_compute; reflexivity.
Defined.

(** The frame [data: {"choices":[{"delta":{"content":"x"}}]}] yields the
    token "x". *)
Lemma completions_token_extraction_witness :
  on_frame (rt := sample_runtime) (T "a1") (T ("data: " ++ choices_x_json)) =
    Continue [OnToken (T "x") (T "a1")].
Proof.
  pose proof (completions_token_extraction (rt := sample_runtime) (T "a1")
           (T ("data: " ++ choices_x_json))
           (choices_event (JString (T "x")))
           (JObject [(T "delta", JObject [(T "content", JString (T "x"))])])
           []
           ltac:(vm_compute; reflexivity) ltac:(vm_compute; reflexivity)
           ltac:(vm_compute; reflexivity) ltac:(vm_compute; reflexivity)
           ltac:(vm_compute; reflexivity)) as [H [Hx _]].
  rewrite (Hx (T "x") eq_refl) in H. exact H.
Defined.

(** ** The model resolver *)

(** C5.  "magistral-latest" expands to the medium and the small variant
    with "-latest", then the same two without it, in that order; and
    "devstral-latest" likewise. *)
Theorem latest_family_expansion :
  families (T "magistral-latest") =
    Some [T "magistral-medium-latest"; T "magistral-small-latest";
          T "magistral-medium"; T "magistral-small"]
  /\ families (T "devstral-latest") =
    Some [T "devstral-medium-latest"; T "devstral-small-latest";
          T "devstral-medium"; T "devstral-small"].
Proof. split; vm_compute; reflexivity. Qed.

Lemma prefer_chat_names (c : text) : c ∈ PREFER_CHAT <-> c ∈ PREFER_CHAT_names.
Proof. unfold PREFER_CHAT. apply elem_of_list_to_set. Qed.

Lemma attempts_app (cs1 cs2 : list text) :
  attempts (cs1 ++ cs2) = attempts cs1 ++ attempts cs2.
Proof. unfold attempts. apply flat_map_app. Qed.

Lemma attempts_one (c : text) :
  attempts [c] =
  if bool_decide (c ∈ PREFER_CHAT_names) then [(chat, c); (conv, c)]
  else [(conv, c); (chat, c)].
Proof.
  unfold attempts, order. simpl. rewrite app_nil_r.
  rewrite (bool_decide_ext _ _ (prefer_chat_names c)).
  destruct (bool_decide _); reflexivity.
Qed.

(** C9.  Before the attachments are merged in, [chatMessages] is the system
    message built from [instructions], present exactly when [instructions]
    is not empty, followed by the caller's messages with string content, in
    their order; a message whose content is not a string is not in it. *)
Theorem chat_messages_before_attachments (instructions : text)
    (messages : list ChatMessagePayload) :
  chatMessages instructions messages =
    (if is_empty instructions then []
     else [{| role := system; content := StringContent instructions |}])
    ++ List.filter has_string_content messages
  /\ (forall m : ChatMessagePayload,
        In m (chatMessages instructions messages) ->
        has_string_content m = true)
  /\ (forall m : ChatMessagePayload,
        has_string_content m = false ->
        ~ In m (chatMessages instructions messages)).
Proof.
  assert (Heq : chatMessages instructions messages =
    (if is_empty instructions then []
     else [{| role := system; content := StringContent instructions |}])
    ++ List.filter has_string_content messages).
  { unfold chatMessages. f_equal.
    induction (List.filter has_string_content messages) as [|[r c] l IH];
      simpl; [reflexivity | rewrite IH; reflexivity]. }
  assert (Hall : forall m, In m (chatMessages instructions messages) ->
                           has_string_content m = true).
  { intros m. rewrite Heq, in_app_iff. intros [H|H].
    - destruct (is_empty instructions); [destruct H|].
      destruct H as [<-|[]]. reflexivity.
    - apply filter_In in H. tauto. }
  split; [exact Heq|]. split; [exact Hall|].
  intros m Hm Hin. apply Hall in Hin. congruence.
Qed.


(** ** The dispatcher *)

Section ProxyFacts.
Context {rt : JsRuntime}.

Lemma text_or_not_empty (a d : text) : d <> [] -> text_or a d <> [].
Proof. unfold text_or. destruct a; simpl; [tauto | discriminate]. Qed.

Lemma text_or_keep (a d : text) : a <> [] -> text_or a d = a.
Proof. unfold text_or. destruct a; simpl; [congruence | reflexivity]. Qed.

Lemma for_order_flat (upstream : Upstream) (candidate : text)
    (whiches : list Which) (st : Loop) :
  for_order upstream candidate whiches st =
  run_attempts upstream (List.map (fun which => (which, candidate)) whiches) st.
Proof.
  revert st. induction whiches as [|w ws IH]; intros st; simpl;
    [reflexivity|].
  destruct (attempt upstream candidate w st); [reflexivity | apply IH].
Qed.

Lemma run_attempts_app (upstream : Upstream) (p1 p2 : list (Which * text))
    (st : Loop) :
  run_attempts upstream (p1 ++ p2) st =
  match run_attempts upstream p1 st with
  | inl done => inl done
  | inr st' => run_attempts upstream p2 st'
  end.
Proof.
  revert st. induction p1 as [|[w c] p1 IH]; intros st; simpl;
    [reflexivity|].
  destruct (attempt upstream c w st); [reflexivity | apply IH].
Qed.

Lemma for_families_flat (upstream : Upstream) (candidates : list text)
    (st : Loop) :
  for_families upstream candidates st =
  run_attempts upstream (attempts candidates) st.
Proof.
  revert st. induction candidates as [|c cs IH]; intros st; [reflexivity|].
  unfold attempts. cbn [List.flat_map]. fold (attempts cs).
  rewrite run_attempts_app, <- for_order_flat. simpl.
  destruct (for_order upstream c (order c) st); [reflexivity | apply IH].
Qed.

(** A failed call that returns has [ok] false and a non-empty
    [errorText]. *)
Lemma failed_call_returns (which : Which) (response : UpstreamResponse) :
  fails (Resolves response) = true ->
  exists r : CallResult,
    call which (Resolves response) = inr r /\ ok r = false
    /\ errorText r <> [].
Proof.
  unfold fails. intros H.
  destruct which; simpl;
    destruct (negb (up_ok response)); simpl in H;
    try (rewrite H);
    eexists; (split; [reflexivity|]); (split; [reflexivity|]); simpl;
    apply text_or_not_empty, text_or_not_empty; discriminate.
Qed.

Lemma fails_declined (fetched : Fetched) :
  fails fetched = true -> declined fetched = true.
Proof.
  destruct fetched as [e|response]; simpl; [reflexivity|].
  intros H. rewrite H. reflexivity.
Qed.

(** A failed attempt always leaves its own error text, whatever was there;
    that text is empty only when the attempt threw. *)
Lemma fails_recorded (which : Which) (fetched : Fetched) (earlier : text) :
  fails fetched = true ->
  recorded which fetched earlier = error_text which fetched
  /\ (error_text which fetched = [] ->
      exists error : Thrown,
        fetched = Rejects error /\ thrown_text error = []).
Proof.
  intros H. unfold recorded, error_text.
  destruct fetched as [e|response].
  - split; [destruct which; reflexivity|].
    intros He. exists e. split; [reflexivity|]. destruct which; exact He.
  - destruct (failed_call_returns which response H) as (r & Hr & _ & Hne).
    rewrite Hr. split; [apply text_or_keep; exact Hne | contradiction].
Qed.

(** An attempt with a non-empty error text leaves that text. *)
Lemma recorded_not_empty (which : Which) (fetched : Fetched) (earlier : text) :
  error_text which fetched <> [] ->
  recorded which fetched earlier = error_text which fetched.
Proof.
  unfold recorded, error_text.
  destruct (call which fetched) as [e|r]; [reflexivity|].
  apply text_or_keep.
Qed.

(** Every turn of the loop issues one request. *)
Lemma attempt_issues (upstream : Upstream) (candidate : text)
    (which : Which) (st : Loop) :
  match attempt upstream candidate which st with
  | inl (reqs, _) => reqs = issued st ++ [(which, candidate)]
  | inr st' => issued st' = issued st ++ [(which, candidate)]
  end.
Proof.
  unfold attempt.
  destruct (match which with chat => _ | conv => _ end) as [e|r];
    [reflexivity|].
  destruct (if ok r && streamable r then _ else _) as [[chunks fin]|];
    [|reflexivity].
  destruct (written st), headers_sent_error; try reflexivity;
    destruct fin; reflexivity.
Qed.

Lemma attempt_declined (upstream : Upstream) (candidate : text)
    (which : Which) (st : Loop) :
  declined (upstream (length (issued st)) which candidate) = true ->
  attempt upstream candidate which st =
    inr {| issued := issued st ++ [(which, candidate)];
           lastErrorText :=
             recorded which (upstream (length (issued st)) which candidate)
               (lastErrorText st);
           written := written st |}.
Proof.
  intros H. unfold attempt, recorded.
  fold (call which (upstream (length (issued st)) which candidate)).
  destruct (upstream (length (issued st)) which candidate) as [e|response].
  - destruct which; reflexivity.
  - simpl in H.
    destruct which; simpl;
      destruct (up_ok response); simpl in *; try reflexivity;
      destruct (is_event_stream response); simpl in *; try reflexivity;
      destruct (up_body response); (discriminate H || reflexivity).
Qed.

(** What [write_all] leaves when nothing was written before. *)
Lemma write_all_fresh (chunks : list (list byte)) :
  default [] (write_all None chunks) = List.concat chunks.
Proof. destruct chunks; reflexivity. Qed.

Lemma attempt_streams (upstream : Upstream) (candidate : text)
    (which : Which) (st : Loop) (response : UpstreamResponse)
    (chunks : list (list byte)) :
  upstream (length (issued st)) which candidate = Resolves response ->
  streams (Resolves response) = true ->
  up_body response = Some (chunks, BodyEnds) ->
  written st = None ->
  attempt upstream candidate which st =
    inl (issued st ++ [(which, candidate)], List.concat chunks).
Proof.
  intros Hup Hs Hb Hw. unfold attempt. rewrite Hup.
  simpl in Hs. apply andb_true_iff in Hs as [Hok Hct].
  destruct which; simpl; rewrite Hok, Hct; simpl; rewrite Hb, Hw;
    rewrite write_all_fresh; reflexivity.
Qed.

Lemma run_all_declined (upstream : Upstream) (pairs : list (Which * text))
    (st : Loop) :
  all_from declined upstream (length (issued st)) pairs = true ->
  exists st' : Loop,
    run_attempts upstream pairs st = inr st'
    /\ issued st' = issued st ++ pairs
    /\ written st' = written st.
Proof.
  revert st. induction pairs as [|[w c] pairs IH]; intros st H.
  - exists st. split; [reflexivity|].
    split; [rewrite app_nil_r; reflexivity | reflexivity].
  - simpl in H. apply andb_true_iff in H as [H1 H2].
    simpl. rewrite (attempt_declined _ _ _ _ H1).
    destruct (IH {| issued := issued st ++ [(w, c)];
                    lastErrorText :=
                      recorded w (upstream (length (issued st)) w c)
                        (lastErrorText st);
                    written := written st |})
      as (st' & Hrun & Hiss & Hw).
    { simpl. rewrite length_app. simpl.
      replace (length (issued st) + 1)%nat with (S (length (issued st)))
        by lia. exact H2. }
    exists st'. split; [exact Hrun|]. split; [|exact Hw].
    rewrite Hiss. simpl. rewrite <- app_assoc. reflexivity.
Qed.

Lemma all_from_app (p : Fetched -> bool) (upstream : Upstream) (k : nat)
    (p1 p2 : list (Which * text)) :
  all_from p upstream k (p1 ++ p2) =
  all_from p upstream k p1 && all_from p upstream (k + length p1)%nat p2.
Proof.
  revert k. induction p1 as [|[w c] p1 IH]; intros k; simpl.
  - rewrite Nat.add_0_r. reflexivity.
  - rewrite IH, andb_assoc.
    replace (S k + length p1)%nat with (k + S (length p1))%nat by lia.
    reflexivity.
Qed.

(** The requests issued are always an initial part of [attempts], and not
    an empty one when there is an attempt to make. *)
Lemma run_attempts_prefix (upstream : Upstream)
    (pairs : list (Which * text)) (st : Loop) :
  match run_attempts upstream pairs st with
  | inl (reqs, _) =>
      exists k : nat,
        (1 <= k <= length pairs)%nat /\ reqs = issued st ++ take k pairs
  | inr st' => issued st' = issued st ++ pairs
  end.
Proof.
  revert st. induction pairs as [|[w c] pairs IH]; intros st; simpl.
  - rewrite app_nil_r. reflexivity.
  - pose proof (attempt_issues upstream c w st) as Hatt.
    destruct (attempt upstream c w st) as [[reqs body]|st'].
    + exists 1%nat. rewrite Hatt. simpl. rewrite take_0.
      split; [lia | reflexivity].
    + specialize (IH st'). rewrite Hatt in IH.
      destruct (run_attempts upstream pairs st') as [[reqs body]|st''].
      * destruct IH as (k & Hk & ->). exists (S k). simpl.
        rewrite <- app_assoc. split; [lia | reflexivity].
      * rewrite IH, <- app_assoc. reflexivity.
Qed.

(** Requests that are declined whatever they ask for. *)
Lemma all_from_declined (upstream : Upstream) (n k : nat)
    (pairs : list (Which * text)) :
  (forall (j : nat) (which : Which) (c : text),
      (j < n)%nat -> declined (upstream j which c) = true) ->
  (k + length pairs <= n)%nat ->
  all_from declined upstream k pairs = true.
Proof.
  intros H. revert k. induction pairs as [|[w c] pairs IH]; intros k Hk;
    [reflexivity|].
  simpl in *. rewrite H by lia. apply IH. lia.
Qed.

End ProxyFacts.

Lemma alias_entries (model : text) (candidates : list text) :
  FAMILY_ALIASES !! model = Some candidates ->
  (2 <= length candidates <= 4)%nat
  /\ Forall (fun c => c ∈ PREFER_CHAT_names) candidates.
Proof.
  unfold FAMILY_ALIASES. intros H.
  apply elem_of_list_to_map_2 in H.
  repeat (apply elem_of_cons in H as [H|H];
          [injection H as -> ->; split; [simpl; lia|];
           repeat constructor; apply (bool_decide_unpack _); vm_compute;
           exact I |]).
  apply elem_of_nil in H. destruct H.
Qed.

Lemma length_attempts (candidates : list text) :
  length (attempts candidates) = (2 * length candidates)%nat.
Proof.
  induction candidates as [|c cs IH]; [reflexivity|].
  unfold attempts in *. cbn [List.flat_map]. rewrite length_app, IH.
  unfold order. destruct (bool_decide _); simpl; lia.
Qed.

Lemma families_candidates (model : text) (candidates : list text) :
  families model = Some candidates ->
  (1 <= length candidates <= 4)%nat.
Proof.
  unfold families, FAMILY_ALIASES_get.
  destruct (FAMILY_ALIASES !! model) as [cs|] eqn:E.
  - intros [= <-]. apply alias_entries in E. lia.
  - destruct (bool_decide _); [discriminate|]. intros [= <-]. simpl. lia.
Qed.

(** [attempts] with the order of the shapes written out. *)
Lemma attempts_explicit (candidates : list text) :
  attempts candidates =
  List.flat_map
    (fun c => if bool_decide (c ∈ PREFER_CHAT_names)
              then [(chat, c); (conv, c)] else [(conv, c); (chat, c)])
    candidates.
Proof.
  unfold attempts. induction candidates as [|c cs IH]; [reflexivity|].
  cbn [List.flat_map]. rewrite IH. f_equal. unfold order.
  destruct (decide (c ∈ PREFER_CHAT_names)) as [Hin|Hout].
  - rewrite (bool_decide_eq_true_2 _ Hin),
      (bool_decide_eq_true_2 _ (proj2 (prefer_chat_names c) Hin)).
    reflexivity.
  - rewrite (bool_decide_eq_false_2 _ Hout),
      (bool_decide_eq_false_2 _
         (fun H => Hout (proj1 (prefer_chat_names c) H))).
    reflexivity.
Qed.

Section ProxyTheorems.
Context {rt : JsRuntime}.

(** C3, amended.  When the attempts before attempt [n] fail (or are
    otherwise declined) and attempt [n] returns a 2xx status with an
    event-stream content type and a body whose stream is read to its end,
    the handler relays the bytes of that body and nothing else, and the
    requests it has issued are exactly the first [n + 1] of [attempts]: none
    after attempt [n]. *)
Theorem first_stream_with_body_is_relayed (upstream : Upstream)
    (model : option text) (candidates : list text) (n : nat)
    (which : Which) (candidate : text) (response : UpstreamResponse)
    (chunks : list (list byte)) :
  families (requested model) = Some candidates ->
  attempts candidates !! n = Some (which, candidate) ->
  all_from declined upstream 0 (take n (attempts candidates)) = true ->
  upstream n which candidate = Resolves response ->
  streams (Resolves response) = true ->
  up_body response = Some (chunks, BodyEnds) ->
  handler model upstream =
    {| requests := take (S n) (attempts candidates);
       reply := Relayed (List.concat chunks) |}.
Proof.
  intros Hfam Hn Hfail Hup Hs Hb.
  unfold handler. cbv zeta. rewrite Hfam, for_families_flat.
  rewrite <- (take_drop_middle _ _ _ Hn) at 1.
  rewrite run_attempts_app.
  destruct (run_all_declined upstream (take n (attempts candidates))
              {| issued := []; lastErrorText := []; written := None |} Hfail)
    as (st1 & Hrun & Hiss & Hw).
  rewrite Hrun. simpl in Hiss, Hw.
  assert (Hlen : length (issued st1) = n).
  { rewrite Hiss. apply length_take_le.
    apply lookup_lt_Some in Hn. lia. }
  cbn [run_attempts].
  rewrite (attempt_streams upstream candidate which st1 response chunks)
    by (rewrite ?Hlen; assumption).
  rewrite Hiss, (take_S_r _ _ _ Hn). reflexivity.
Qed.

(** C2, amended.  When no attempt is relayed, all of them are issued and the
    reply is one 502.  Its message is the error text of the last attempt,
    whatever the earlier attempts recorded, whenever that text is not empty;
    it is the generic message when the last attempt threw with an empty
    message. *)
Theorem last_error_text_is_reported (upstream : Upstream)
    (model : option text) (candidates : list text) (which : Which)
    (candidate : text) :
  families (requested model) = Some candidates ->
  all_from declined upstream 0 (attempts candidates) = true ->
  last (attempts candidates) = Some (which, candidate) ->
  let fetched :=
    upstream (length (attempts candidates) - 1)%nat which candidate in
  requests (handler model upstream) = attempts candidates
  /\ (error_text which fetched <> [] ->
      reply (handler model upstream) = BadGateway (error_text which fetched))
  /\ (forall error : Thrown,
        fetched = Rejects error -> thrown_text error = [] ->
        reply (handler model upstream) = BadGateway generic_failure).
Proof.
  intros Hfam Hdecl Hlast fetched.
  apply last_Some in Hlast as [pre Hpre].
  assert (Hidx : (length (attempts candidates) - 1)%nat = length pre).
  { rewrite Hpre, length_app. simpl. lia. }
  subst fetched. rewrite Hidx.
  rewrite Hpre, all_from_app in Hdecl.
  apply andb_true_iff in Hdecl as [Hdecl1 Hdecl2].
  simpl in Hdecl2. rewrite andb_true_r in Hdecl2.
  destruct (run_all_declined upstream pre
              {| issued := []; lastErrorText := []; written := None |} Hdecl1)
    as (st1 & Hrun & Hiss & Hw).
  simpl in Hiss, Hw.
  assert (Hhandler : handler model upstream =
    {| requests := attempts candidates;
       reply := BadGateway
                  (text_or (recorded which
                              (upstream (length pre) which candidate)
                              (lastErrorText st1))
                     generic_failure) |}).
  { unfold handler. cbv zeta. rewrite Hfam, for_families_flat, Hpre.
    rewrite run_attempts_app, Hrun. cbn [run_attempts].
    rewrite attempt_declined by (rewrite Hiss; exact Hdecl2).
    cbn [issued lastErrorText written]. rewrite Hiss, Hw. reflexivity. }
  rewrite Hhandler. cbn [requests reply]. split; [reflexivity|]. split.
  - intros Hne. rewrite recorded_not_empty by exact Hne.
    rewrite text_or_keep by exact Hne. reflexivity.
  - intros error Heq Hempty. rewrite Heq. unfold recorded.
    replace (call which (Rejects error)) with (@inl Thrown CallResult error)
      by (destruct which; reflexivity).
    rewrite Hempty. reflexivity.
Qed.

(** C6.  For the candidate at position [i] of the resolver's list, when
    the requests before are declined: request number [2 i] goes to this
    candidate with the "chat" (completions) shape when the candidate is
    equal to one of the names listed in [PREFER_CHAT], and with the "conv"
    (conversation) shape when it is not; and when that request is declined
    too, request number [2 i + 1] goes to the same candidate with the other
    shape.  Membership is equality of code-unit sequences with one of the
    listed names.  In every run, whatever the upstream answers, the
    requests issued are a non-empty initial part of the sequence in which
    each candidate contributes its two shapes in that order. *)
Theorem shape_preference_order (upstream : Upstream) (model : option text)
    (candidates : list text) (i : nat) (candidate : text) :
  families (requested model) = Some candidates ->
  candidates !! i = Some candidate ->
  (forall (k : nat) (which : Which) (c : text),
      (k < 2 * i)%nat -> declined (upstream k which c) = true) ->
  let preferred := bool_decide (candidate ∈ PREFER_CHAT_names) in
  let first := if preferred then chat else conv in
  let second := if preferred then conv else chat in
  requests (handler model upstream) !! (2 * i)%nat = Some (first, candidate)
  /\ (declined (upstream (2 * i)%nat first candidate) = true ->
      requests (handler model upstream) !! (2 * i + 1)%nat
      = Some (second, candidate))
  /\ exists k : nat,
       (1 <= k)%nat
       /\ requests (handler model upstream) =
          take k
            (List.flat_map
               (fun c => if bool_decide (c ∈ PREFER_CHAT_names)
                         then [(chat, c); (conv, c)]
                         else [(conv, c); (chat, c)])
               candidates).
Proof.
  intros Hfam Hi Hdecl preferred first second.
  assert (Hreq : requests (handler model upstream) =
                 match run_attempts upstream (attempts candidates)
                         {| issued := []; lastErrorText := [];
                            written := None |} with
                 | inl (reqs, _) => reqs
                 | inr st => issued st
                 end).
  { unfold handler. cbv zeta. rewrite Hfam, for_families_flat.
    destruct (run_attempts upstream (attempts candidates) _) as [[reqs b]|st];
      reflexivity. }
  rewrite Hreq.
  (* the candidates before, this one, and those after *)
  pose proof (take_drop_middle _ _ _ Hi) as Hsplit. symmetry in Hsplit.
  assert (Hlen : length (take i candidates) = i).
  { apply length_take_le. apply lookup_lt_Some in Hi. lia. }
  revert Hsplit Hlen.
  generalize (take i candidates) as pre, (drop (S i) candidates) as post.
  intros pre post Hsplit Hlen.
  assert (Hatt : attempts candidates =
                 attempts pre
                 ++ (first, candidate) :: (second, candidate) :: attempts post).
  { rewrite Hsplit. change (candidate :: post) with ([candidate] ++ post).
    rewrite !attempts_app, attempts_one. subst first second preferred.
    destruct (bool_decide _); reflexivity. }
  assert (Hpre : length (attempts pre) = (2 * i)%nat)
    by (rewrite length_attempts; lia).
  destruct (run_all_declined upstream (attempts pre)
              {| issued := []; lastErrorText := []; written := None |}
              (all_from_declined upstream (2 * i) 0 (attempts pre) Hdecl
                 ltac:(lia)))
    as (st1 & Hrun & Hiss & Hw).
  simpl in Hiss.
  split; [|split].
  - rewrite Hatt, run_attempts_app, Hrun.
    pose proof (run_attempts_prefix upstream
                  ((first, candidate) :: (second, candidate) :: attempts post)
                  st1) as Hp.
    destruct (run_attempts upstream (_ :: _) st1) as [[reqs b]|st].
    + destruct Hp as (k & Hk & ->). rewrite Hiss.
      destruct k as [|k]; [lia|]. cbn [take].
      rewrite lookup_app_r by lia. rewrite Hpre, Nat.sub_diag. reflexivity.
    + rewrite Hp, Hiss. rewrite lookup_app_r by lia.
      rewrite Hpre, Nat.sub_diag. reflexivity.
  - intros Hfirst.
    rewrite Hatt, run_attempts_app, Hrun.
    set (tail := (second, candidate) :: attempts post).
    cbn [run_attempts].
    rewrite attempt_declined by (rewrite Hiss, Hpre; exact Hfirst).
    subst tail.
    match goal with
    | |- context [run_attempts upstream ?l ?st] =>
        pose proof (run_attempts_prefix upstream l st) as Hp;
        destruct (run_attempts upstream l st) as [[reqs b]|st2]
    end; cbn [issued] in Hp.
    + destruct Hp as (k & Hk & ->). rewrite Hiss.
      destruct k as [|k]; [lia|]. cbn [take].
      rewrite <- app_assoc. rewrite lookup_app_r by lia.
      rewrite Hpre. replace (2 * i + 1 - 2 * i)%nat with 1%nat by lia.
      reflexivity.
    + rewrite Hp, Hiss, <- app_assoc. rewrite lookup_app_r by lia.
      rewrite Hpre. replace (2 * i + 1 - 2 * i)%nat with 1%nat by lia.
      reflexivity.
  - rewrite <- attempts_explicit.
    pose proof (run_attempts_prefix upstream (attempts candidates)
                  {| issued := []; lastErrorText := []; written := None |})
      as Hp.
    destruct (run_attempts upstream (attempts candidates) _)
      as [[reqs b]|st].
    + destruct Hp as (k & Hk & ->). exists k. split; [lia | reflexivity].
    + exists (length (attempts candidates)). split.
      * rewrite length_attempts. apply families_candidates in Hfam. lia.
      * rewrite Hp. simpl. symmetry. apply firstn_all.
Qed.

(** C7.  "constructor" is not a key of [FAMILY_ALIASES], yet
    [FAMILY_ALIASES["constructor"]] is the inherited [Object] function, which
    is truthy: [families] is not the singleton, the loop over it throws, and
    no request is issued. *)
Theorem inherited_name_is_not_iterable (upstream : Upstream) :
  FAMILY_ALIASES !! T "constructor" = None
  /\ handler (Some (T "constructor")) upstream =
       {| requests := []; reply := NotIterable |}.
Proof.
  split; [vm_compute; reflexivity|].
  unfold handler. cbv zeta.
  replace (families (requested (Some (T "constructor")))) with (@None (list text))
    by (vm_compute; reflexivity).
  reflexivity.
Qed.

(** A model name that is neither a key of the table nor a member of
    [Object.prototype] is its own single candidate, tried under both
    shapes. *)
Lemma unknown_model_two_attempts (model : text) :
  FAMILY_ALIASES !! model = None ->
  model ∉ Object_prototype_names ->
  families model = Some [model]
  /\ (attempts [model] = [(chat, model); (conv, model)]
      \/ attempts [model] = [(conv, model); (chat, model)]).
Proof.
  intros Hnone Hproto. split.
  - unfold families, FAMILY_ALIASES_get. rewrite Hnone.
    rewrite bool_decide_eq_false_2 by exact Hproto. reflexivity.
  - rewrite attempts_one. destruct (bool_decide _); [left|right]; reflexivity.
Qed.

End ProxyTheorems.

(** C2, as worded, fails: the first attempt answers 500 "boom", the second
    throws an Error whose message is empty; the reply carries the generic
    message, which is not the (empty) error text of the last attempt. *)
Lemma last_error_not_always_reported :
  ~ reports_last_error (rt := sample_runtime)
      (first_then (error_500 (T "boom")) (Rejects (ErrorObject [])))
      (Some (T "open-mistral-7b")).
Proof.
  intros H.
  specialize (H [T "open-mistral-7b"] chat (T "open-mistral-7b")).
  assert (H1 : families (requested (Some (T "open-mistral-7b"))) =
               Some [T "open-mistral-7b"]) by (vm_compute; reflexivity).
  specialize (H H1).
  assert (H2 : all_from (fails (rt := sample_runtime))
                 (first_then (error_500 (T "boom")) (Rejects (ErrorObject [])))
                 0 (attempts [T "open-mistral-7b"]) = true)
    by (vm_compute; reflexivity).
  specialize (H H2).
  assert (H3 : last (attempts [T "open-mistral-7b"]) =
               Some (chat, T "open-mistral-7b")) by (vm_compute; reflexivity).
  specialize (H H3).
  vm_compute in H. discriminate H.
Qed.

(** C3, as worded, fails: the first attempt answers 204 with an
    event-stream content type and no body; nothing is relayed and the second
    attempt is issued. *)
Lemma stream_without_body_is_not_relayed :
  ~ relays_first_stream (rt := sample_runtime)
      (first_then (event_stream 204 None) (error_500 (T "boom")))
      (Some (T "open-mistral-7b")).
Proof.
  intros H.
  specialize (H [T "open-mistral-7b"] 0%nat conv (T "open-mistral-7b")).
  assert (H1 : families (requested (Some (T "open-mistral-7b"))) =
               Some [T "open-mistral-7b"]) by (vm_compute; reflexivity).
  assert (H2 : attempts [T "open-mistral-7b"] !! 0%nat =
               Some (conv, T "open-mistral-7b")) by (vm_compute; reflexivity).
  destruct (H H1 H2 eq_refl eq_refl) as [body Hrun].
  vm_compute in Hrun. discriminate Hrun.
Qed.

(** What the handler does on the two inputs above. *)
Example empty_message_run :
  handler (rt := sample_runtime) (Some (T "open-mistral-7b"))
    (first_then (error_500 (T "boom")) (Rejects (ErrorObject []))) =
  {| requests := [(conv, T "open-mistral-7b"); (chat, T "open-mistral-7b")];
     reply := BadGateway generic_failure |}.
Proof. vm_compute. reflexivity. Qed.

Example no_body_run :
  handler (rt := sample_runtime) (Some (T "open-mistral-7b"))
    (first_then (event_stream 204 None) (error_500 (T "boom"))) =
  {| requests := [(conv, T "open-mistral-7b"); (chat, T "open-mistral-7b")];
     reply := BadGateway (T "boom") |}.
Proof. vm_compute. reflexivity. Qed.

(** An attempt that fails without an error text (an event-stream response
    without a body) leaves the text of the attempt before it in place. *)
Example silent_failure_keeps_earlier_error :
  handler (rt := sample_runtime) (Some (T "open-mistral-7b"))
    (first_then (error_500 (T "boom")) (event_stream 204 None)) =
  {| requests := [(conv, T "open-mistral-7b"); (chat, T "open-mistral-7b")];
     reply := BadGateway (T "boom") |}.
Proof. vm_compute. reflexivity. Qed.

(** 500 "boom", then an exception "fetch failed": the reply carries
    "fetch failed". *)
Lemma last_error_text_is_reported_witness :
  reply (handler (rt := sample_runtime) (Some (T "open-mistral-7b"))
           (first_then (error_500 (T "boom"))
              (Rejects (ErrorObject (T "fetch failed"))))) =
  BadGateway (T "fetch failed").
Proof.
  apply (last_error_text_is_reported (rt := sample_runtime)
           (first_then (error_500 (T "boom"))
              (Rejects (ErrorObject (T "fetch failed"))))
           (Some (T "open-mistral-7b")) [T "open-mistral-7b"]
           chat (T "open-mistral-7b")
           ltac:(vm_compute; reflexivity)
           ltac:(vm_compute; reflexivity)
           ltac:(vm_compute; reflexivity)).
  vm_compute. discriminate.
Defined.

(** 500 "boom", then an event stream: its body is relayed after two
    requests. *)
Lemma first_stream_with_body_is_relayed_witness :
  handler (rt := sample_runtime) (Some (T "open-mistral-7b"))
    (first_then (error_500 (T "boom"))
       (event_stream 200 (Some [sse_frame delta_ab_json; sse_frame done_json])))
  =
  {| requests := [(conv, T "open-mistral-7b"); (chat, T "open-mistral-7b")];
     reply := Relayed (sse_frame delta_ab_json ++ sse_frame done_json) |}.
Proof.
  rewrite (first_stream_with_body_is_relayed (rt := sample_runtime)
             (first_then (error_500 (T "boom"))
                (event_stream 200
                   (Some [sse_frame delta_ab_json; sse_frame done_json])))
             (Some (T "open-mistral-7b")) [T "open-mistral-7b"] 1%nat
             chat (T "open-mistral-7b")
             {| up_status := 200;
                up_content_type := Some (T "text/event-stream");
                up_text := None;
                up_body :=
                  Some ([sse_frame delta_ab_json; sse_frame done_json],
                        BodyEnds) |}
             [sse_frame delta_ab_json; sse_frame done_json]
             ltac:(vm_compute; reflexivity) ltac:(vm_compute; reflexivity)
             ltac:(vm_compute; reflexivity) ltac:(reflexivity)
             ltac:(vm_compute; reflexivity) ltac:(reflexivity)).
  vm_compute. reflexivity.
Defined.

(** A body that breaks is not the end of the run: the first attempt is a
    2xx event stream whose body breaks before its first chunk; the [catch]
    records the message and the second attempt is issued. *)
Example broken_body_is_retried :
  handler (rt := sample_runtime) (Some (T "open-mistral-7b"))
    (first_then (broken_stream [] (ErrorObject (T "terminated")))
       (error_500 (T "boom"))) =
  {| requests := [(conv, T "open-mistral-7b"); (chat, T "open-mistral-7b")];
     reply := BadGateway (T "boom") |}.
Proof. vm_compute. reflexivity. Qed.

(** The same when a chunk was written before the body broke: the caller
    has received status 200 and that chunk, and the run finishes with the
    call for the 502 on the response that is already started. *)
Example broken_relay_is_truncated :
  handler (rt := sample_runtime) (Some (T "open-mistral-7b"))
    (first_then
       (broken_stream [sse_frame delta_ab_json] (ErrorObject (T "terminated")))
       (error_500 (T "boom"))) =
  {| requests := [(conv, T "open-mistral-7b"); (chat, T "open-mistral-7b")];
     reply := Truncated (sse_frame delta_ab_json) (T "boom") |}.
Proof. vm_compute. reflexivity. Qed.

(** After a relay that broke off with a chunk written, Node refuses the
    headers of a second relay: the event stream of the second attempt is
    not relayed, and the message of that refusal is what the handler
    reports. *)
Example second_relay_is_refused :
  handler (rt := sample_runtime) (Some (T "open-mistral-7b"))
    (first_then
       (broken_stream [sse_frame delta_ab_json] (ErrorObject (T "terminated")))
       (event_stream 200 (Some [sse_frame done_json]))) =
  {| requests := [(conv, T "open-mistral-7b"); (chat, T "open-mistral-7b")];
     reply :=
       Truncated (sse_frame delta_ab_json)
         (T "Cannot set headers after they are sent to the client") |}.
Proof. vm_compute. reflexivity. Qed.

(** "magistral-latest" against an upstream that always answers 500: the
    second candidate, at position 1, gets the requests number 2 and 3, with
    the chat shape first. *)
Lemma shape_preference_order_witness :
  requests (handler (rt := sample_runtime) (Some (T "magistral-latest"))
              (fun _ _ _ => error_500 (T "boom"))) !! 2%nat
  = Some (chat, T "magistral-small-latest")
  /\ requests (handler (rt := sample_runtime) (Some (T "magistral-latest"))
                (fun _ _ _ => error_500 (T "boom"))) !! 3%nat
     = Some (conv, T "magistral-small-latest").
Proof.
  destruct (shape_preference_order (rt := sample_runtime)
              (fun _ _ _ => error_500 (T "boom")) (Some (T "magistral-latest"))
              [T "magistral-medium-latest"; T "magistral-small-latest";
               T "magistral-medium"; T "magistral-small"]
              1%nat (T "magistral-small-latest")
              ltac:(vm_compute; reflexivity) ltac:(reflexivity)
              ltac:(intros; vm_compute; reflexivity))
    as (Hfirst & Hsecond & _).
  split; [exact Hfirst | apply Hsecond; vm_compute; reflexivity].
Defined.

(** A name that differs from a listed one only in case is not preferred:
    its conversation shape comes first. *)
Example preference_is_case_sensitive :
  requests (handler (rt := sample_runtime) (Some (T "Mistral-Small"))
              (fun _ _ _ => error_500 (T "boom"))) =
  [(conv, T "Mistral-Small"); (chat, T "Mistral-Small")].
Proof. vm_compute. reflexivity. Qed.

(** ** The stream framer: every run *)

Section FramerRuns.
Context {rt : JsRuntime}.

(** What every call made while the body is read looks like. *)
Lemma read_loop_calls (P : Callback -> Prop) (hasOnAbort : bool)
    (assistantId : text) :
  (forall piece : text, piece <> [] -> P (OnToken piece assistantId)) ->
  P (OnDone assistantId) ->
  (forall message : text, P (OnError (JString message) assistantId)) ->
  P (OnAbort assistantId) ->
  forall (chunks : list (list byte)) (fin : ReadEnd) (decoder : Utf8Decoder)
         (buffer : text),
    Forall P (read_loop hasOnAbort assistantId decoder buffer chunks fin).
Proof.
  intros Htok Hdone Herr Habort.
  assert (Htoken : forall piece, Forall P (token assistantId piece)).
  { intros piece. unfold token. destruct piece; simpl; [constructor|].
    repeat constructor. apply Htok. discriminate. }
  assert (Hframe : forall frame,
             Forall P (turn_calls (on_frame assistantId frame))).
  { intros frame. unfold on_frame.
    destruct (extractDataJsonFromFrame frame) as [evt|]; [|constructor].
    destruct (truthy evt); [|constructor]. unfold on_event.
    destruct (type_is evt _); [apply Htoken|].
    destruct (type_is evt _); [repeat constructor; exact Hdone|].
    destruct (when_truthy _); [repeat constructor; apply Herr|].
    unfold on_choices.
    destruct (prop evt _) as [[| | | |[|choice more]|]|]; try constructor.
    apply Htoken. }
  assert (Hframes : forall frames,
             Forall P (turn_calls (for_frames assistantId frames))).
  { induction frames as [|f frames IH]; simpl; [constructor|].
    specialize (Hframe f).
    destruct (on_frame assistantId f) as [c|c]; simpl in *; [|exact Hframe].
    destruct (for_frames assistantId frames) as [m|m]; simpl in *;
      apply Forall_app; split; assumption. }
  induction chunks as [|c chunks IH]; intros fin decoder buffer; simpl.
  - destruct fin as [|[m|m|s]|]; simpl; unfold call_onAbort;
      try destruct hasOnAbort; repeat constructor; auto.
  - destruct (decode_stream decoder c) as [d' s].
    specialize (Hframes (pop_rest (split_frames (buffer ++ s)))).
    destruct (for_frames assistantId _) as [k|k]; simpl in Hframes.
    + apply Forall_app; split; [exact Hframes | apply IH].
    + exact Hframes.
Qed.

(** X1.  Whatever the fetch comes to and whatever the stream holds, [onToken] is
    never called with an empty chunk: both call sites guard it ([if (chunk)],
    [if (piece)]). *)
Theorem tokens_are_never_empty (preset : option text) (generated : text)
    (hasOnAbort : bool) (fetched : FetchOutcome) :
  Forall (fun chunk : text => chunk <> [])
    (tokens_of (streamMistralReply preset generated hasOnAbort fetched)).
Proof.
  set (P := fun c : Callback =>
              match c with OnToken chunk _ => chunk <> [] | _ => True end).
  assert (H : Forall P (streamMistralReply preset generated hasOnAbort fetched)).
  { unfold streamMistralReply. constructor; [exact I|].
    destruct fetched as [[m|m|s]|res|].
    - unfold call_onAbort. destruct hasOnAbort; repeat constructor.
    - repeat constructor.
    - repeat constructor.
    - destruct (negb (res_ok res));
        [destruct (res_text res); repeat constructor|].
      destruct (res_body res) as [[chunks fin]|]; [|repeat constructor].
      apply read_loop_calls; simpl; auto.
    - constructor. }
  induction H as [|c l Hc _ IH]; [constructor|].
  unfold tokens_of in *. simpl.
  destruct c; simpl; try exact IH. constructor; assumption.
Qed.

Lemma quiet_turn (assistantId frame : text) :
  match on_frame assistantId frame with
  | Continue calls => Forall (fun c => ends_run c = false) calls
  | Return calls => exists c, calls = [c] /\ ends_run c = true
  end.
Proof.
  unfold on_frame.
  destruct (extractDataJsonFromFrame frame) as [evt|]; [|constructor].
  destruct (truthy evt); [|constructor]. unfold on_event, token.
  destruct (type_is evt _).
  { destruct (is_empty _); repeat constructor. }
  destruct (type_is evt _); [repeat constructor|].
  destruct (when_truthy _); [eexists; split; reflexivity|].
  unfold on_choices, token.
  destruct (prop evt _) as [[| | | |[|choice more]|]|]; try constructor.
  destruct (is_empty _); repeat constructor.
Qed.

Lemma quiet_frames (assistantId : text) (frames : list text) :
  match for_frames assistantId frames with
  | Continue calls => Forall (fun c => ends_run c = false) calls
  | Return calls =>
      exists pre c, calls = pre ++ [c]
                    /\ Forall (fun c => ends_run c = false) pre
                    /\ ends_run c = true
  end.
Proof.
  induction frames as [|f frames IH]; simpl; [constructor|].
  pose proof (quiet_turn assistantId f) as Hf.
  destruct (on_frame assistantId f) as [k|k]; simpl.
  - destruct (for_frames assistantId frames) as [m|m].
    + apply Forall_app; split; assumption.
    + destruct IH as (pre & c & -> & Hpre & Hc).
      exists (k ++ pre), c. rewrite app_assoc. split; [reflexivity|].
      split; [apply Forall_app; split; assumption | exact Hc].
  - destruct Hf as (c & -> & Hc). exists [], c.
    split; [reflexivity|]. split; [constructor | exact Hc].
Qed.

Lemma read_loop_ends_at_most_once (hasOnAbort : bool) (assistantId : text)
    (chunks : list (list byte)) (fin : ReadEnd) (decoder : Utf8Decoder)
    (buffer : text) :
  ends_at_most_once
    (read_loop hasOnAbort assistantId decoder buffer chunks fin).
Proof.
  revert decoder buffer.
  induction chunks as [|c chunks IH]; intros decoder buffer; simpl.
  - exists [].
    destruct fin as [|[m|m|s]|]; simpl; unfold call_onAbort;
      try destruct hasOnAbort; eexists; (split; [reflexivity|]);
      (split; [constructor | simpl; lia]).
  - destruct (decode_stream decoder c) as [d' s].
    pose proof (quiet_frames assistantId
                  (pop_rest (split_frames (buffer ++ s)))) as Hf.
    destruct (for_frames assistantId _) as [k|k].
    + destruct (IH d' (pop_last (split_frames (buffer ++ s))))
        as (pre & tail & -> & Hpre & Htail).
      exists (k ++ pre), tail. rewrite app_assoc. split; [reflexivity|].
      split; [apply Forall_app; split; assumption | exact Htail].
    + destruct Hf as (pre & c0 & -> & Hpre & _).
      exists pre, [c0]. split; [reflexivity|]. split; [exact Hpre|].
      simpl. lia.
Qed.

(** X2.  After a call of [onError] or [onAbort] the function makes no other call:
    each of these calls is followed by [return] or ends the [catch] block.
    ([onDone] has no such property: after the terminal frame the loop
    goes on.) *)
Theorem nothing_follows_onError_or_onAbort (preset : option text)
    (generated : text) (hasOnAbort : bool) (fetched : FetchOutcome)
    (before after : list Callback) (c : Callback) :
  streamMistralReply preset generated hasOnAbort fetched =
    before ++ c :: after ->
  ends_run c = true ->
  after = [].
Proof.
  intros Heq Hc.
  assert (H : ends_at_most_once
                (streamMistralReply preset generated hasOnAbort fetched)).
  { unfold streamMistralReply.
    assert (Hbody : forall body, ends_at_most_once body ->
              ends_at_most_once
                (OnStart (default generated preset) :: body)).
    { intros body (pre & tail & -> & Hpre & Htail).
      exists (OnStart (default generated preset) :: pre), tail.
      split; [reflexivity|]. split; [constructor; [reflexivity|exact Hpre]|].
      exact Htail. }
    apply Hbody.
    destruct fetched as [[m|m|s]|res|].
    - exists []. unfold call_onAbort. destruct hasOnAbort;
        eexists; (split; [reflexivity|]); (split; [constructor|simpl; lia]).
    - exists [], [OnError (JString m) (default generated preset)].
      split; [reflexivity|]. split; [constructor|simpl; lia].
    - exists []. eexists. split; [reflexivity|].
      split; [constructor|simpl; lia].
    - destruct (negb (res_ok res)).
      { exists []. eexists. split; [reflexivity|].
        split; [constructor|destruct (res_text res); simpl; lia]. }
      destruct (res_body res) as [[chunks fin]|].
      + apply read_loop_ends_at_most_once.
      + exists []. eexists. split; [reflexivity|].
        split; [constructor|simpl; lia].
    - exists [], []. split; [reflexivity|].
      split; [constructor|simpl; lia]. }
  destruct H as (pre & tail & Hsplit & Hpre & Htail).
  rewrite Heq in Hsplit.
  (* c lies in pre or in tail *)
  assert (Hlen : (length before < length pre \/ length pre <= length before)%nat)
    by lia.
  destruct Hlen as [Hlt|Hge].
  - exfalso.
    assert (Hin : pre !! length before = Some c).
    { rewrite <- (lookup_app_l pre tail) by exact Hlt.
      rewrite <- Hsplit. rewrite lookup_app_r by lia.
      rewrite Nat.sub_diag. reflexivity. }
    rewrite Forall_lookup in Hpre. specialize (Hpre _ _ Hin). congruence.
  - apply (f_equal length) in Hsplit. rewrite !length_app in Hsplit.
    simpl in Hsplit. destruct after; [reflexivity|]. simpl in Hsplit. lia.
Qed.

Lemma read_loop_ends_with_a_final_call (assistantId : text)
    (chunks : list (list byte)) (fin : ReadEnd) (decoder : Utf8Decoder)
    (buffer : text) :
  fin <> ReadStalls ->
  exists (before : list Callback) (c : Callback),
    read_loop true assistantId decoder buffer chunks fin = before ++ [c]
    /\ is_final c = true.
Proof.
  intros Hfin. revert buffer decoder.
  induction chunks as [|ch chunks IH]; intros buffer decoder; simpl.
  - destruct fin as [|[m|m|s]|]; [..|contradiction];
      exists []; eexists; split; reflexivity.
  - destruct (decode_stream decoder ch) as [d' s].
    pose proof (quiet_frames assistantId
                  (pop_rest (split_frames (buffer ++ s)))) as Hf.
    destruct (for_frames _ _) as [k|k].
    + destruct (IH (pop_last (split_frames (buffer ++ s))) d')
        as (before & c & -> & Hc).
      exists (k ++ before), c. rewrite app_assoc. split; [reflexivity|exact Hc].
    + destruct Hf as (pre & c & -> & _ & Hc).
      exists pre, c. split; [reflexivity|].
      destruct c; try discriminate Hc; reflexivity.
Qed.

Lemma reply_ends_with_a_final_call (preset : option text) (generated : text)
    (fetched : FetchOutcome) :
  never_stalls fetched = true ->
  exists (before : list Callback) (c : Callback),
    streamMistralReply preset generated true fetched = before ++ [c]
    /\ is_final c = true.
Proof.
  intros Hgo. unfold streamMistralReply.
  assert (Hbody : forall body : list Callback,
            (exists before c, body = before ++ [c] /\ is_final c = true) ->
            exists before c,
              OnStart (default generated preset) :: body = before ++ [c]
              /\ is_final c = true).
  { intros body (before & c & -> & Hc).
    exists (OnStart (default generated preset) :: before), c.
    split; [reflexivity | exact Hc]. }
  apply Hbody.
  destruct fetched as [[m|m|s]|res|];
    try (exists []; eexists; split; reflexivity); [|discriminate Hgo].
  simpl in Hgo. destruct (negb (res_ok res)).
  { destruct (res_text res); [..|discriminate Hgo];
      exists []; eexists; split; reflexivity. }
  destruct (res_body res) as [[chunks fin]|];
    [|exists []; eexists; split; reflexivity].
  apply read_loop_ends_with_a_final_call. intros ->. discriminate Hgo.
Qed.

(** A fetch that never settles: [onStart] is the only call. *)
Lemma stalled_fetch_only_starts (preset : option text) (generated : text)
    (hasOnAbort : bool) :
  streamMistralReply preset generated hasOnAbort FetchStalls =
    [OnStart (default generated preset)].
Proof. reflexivity. Qed.

(** X3.  When the caller passes [onAbort] and nothing stalls (the fetch
    settles, and the read of the error text or of the body ends or fails),
    the run ends with a call of [onDone], [onError] or [onAbort]: the
    caller is told that the reply is over.  The function sets no timeout of
    its own, so nothing of the kind holds of a fetch or a body that
    stalls. *)
Theorem reply_always_ends (preset : option text) (generated : text)
    (fetched : FetchOutcome) :
  never_stalls fetched = true ->
  exists (before : list Callback) (c : Callback),
    streamMistralReply preset generated true fetched = before ++ [c]
    /\ is_final c = true.
Proof. apply reply_ends_with_a_final_call. Qed.

End FramerRuns.

(** ** The stream framer: frames and data lines *)

Lemma no_delimiter_single (s : text) :
  includes s [LF; LF] = false -> split_frames s = [s].
Proof.
  unfold includes. induction s as [|c r IH]; [reflexivity|].
  cbn [indexOf]. destruct (startsWith (c :: r) [LF; LF]) eqn:Hs; [discriminate|].
  destruct (indexOf r [LF; LF]) eqn:Hi; [discriminate|]. intros _.
  rewrite split_frames_step.
  - rewrite IH by reflexivity. reflexivity.
  - destruct r as [|c' r']; [exact I|]. cbn [startsWith] in Hs.
    replace (startsWith r' []) with true in Hs by (destruct r'; reflexivity).
    rewrite andb_true_r in Hs.
    rewrite (N.eqb_sym c), (N.eqb_sym c'). exact Hs.
Qed.

Lemma join_empty_app (a b : list text) : join [] (a ++ b) = join [] a ++ join [] b.
Proof.
  induction a as [|x a IH]; [reflexivity|].
  assert (Hj : forall l, join [] (x :: l) = x ++ join [] l).
  { intros [|y l]; simpl; [rewrite app_nil_r|]; reflexivity. }
  change ((x :: a) ++ b) with (x :: (a ++ b)).
  rewrite !Hj, IH, app_assoc. reflexivity.
Qed.

Lemma split_lines_plain (l : text) : plain_line l = true -> split_lines l = [l].
Proof.
  induction l as [|c r IH]; [reflexivity|]. simpl.
  intros H. apply andb_true_iff in H as [Hc Hr].
  apply andb_true_iff in Hc as [Hlf Hcr].
  apply negb_true_iff in Hlf, Hcr. rewrite Hlf, Hcr. simpl.
  rewrite (IH Hr). destruct r; reflexivity.
Qed.

Lemma split_lines_first (l rest : text) :
  plain_line l = true -> split_lines (l ++ LF :: rest) = l :: split_lines rest.
Proof.
  induction l as [|c r IH]; [reflexivity|]. simpl.
  intros H. apply andb_true_iff in H as [Hc Hr].
  apply andb_true_iff in Hc as [Hlf Hcr].
  apply negb_true_iff in Hlf, Hcr. rewrite Hlf, Hcr. simpl.
  rewrite (IH Hr). destruct (r ++ LF :: rest); reflexivity.
Qed.

Section FramerFrames.
Context {rt : JsRuntime}.

(** X4.  A 2xx response whose body, once decoded, holds no blank line (no two
    consecutive newlines) and then ends gives no token at all: the calls are
    [onStart] and [onDone].  The text after the last delimiter stays in
    [buffer] and is dropped when the stream ends, so a last frame that is
    not terminated is lost. *)
Theorem body_without_blank_line_yields_no_token (preset : option text)
    (generated : text) (hasOnAbort : bool) (response : Response)
    (chunks : list (list byte)) :
  res_ok response = true ->
  includes (snd (decode_stream new_TextDecoder (List.concat chunks)))
    [LF; LF] = false ->
  streamMistralReply preset generated hasOnAbort
    (with_body response chunks EndOfStream) =
  [OnStart (default generated preset); OnDone (default generated preset)].
Proof.
  intros Hok Hno. unfold with_body, streamMistralReply, res_ok.
  cbn [status res_body]. unfold res_ok in Hok. rewrite Hok. cbn [negb].
  f_equal. destruct chunks as [|c rest]; [reflexivity|].
  rewrite read_loop_concat. change (c ++ List.concat rest) with
    (List.concat (c :: rest)).
  cbn [read_loop].
  destruct (decode_stream new_TextDecoder (List.concat (c :: rest)))
    as [d s]. simpl in Hno. simpl app.
  rewrite (no_delimiter_single s Hno). reflexivity.
Qed.

(** X5.  [extractDataJsonFromFrame] reads only the first line that starts with
    [data:] once trimmed: when the first line of a frame is such a line, the
    result is that of this line alone, whatever follows (later data lines of
    the frame are ignored); otherwise the line is skipped. *)
Theorem first_data_line_decides (line rest : text) :
  plain_line line = true ->
  extractDataJsonFromFrame (line ++ LF :: rest) =
    if startsWith (trim line) (T "data:") then extractDataJsonFromFrame line
    else extractDataJsonFromFrame rest.
Proof.
  intros Hplain. unfold extractDataJsonFromFrame.
  rewrite (split_lines_first line rest Hplain), (split_lines_plain line Hplain).
  cbn [List.find].
  destruct (startsWith (trim line) (T "data:")); reflexivity.
Qed.

(** X7.  The text of a segment list is the concatenation of the texts of its
    parts: [extractTextFromDeltaContent] maps each segment to its text and
    joins with the empty separator. *)
Theorem segments_are_concatenated (items1 items2 : list value) :
  extractTextFromDeltaContent (Some (JArray (items1 ++ items2))) =
    extractTextFromDeltaContent (Some (JArray items1))
    ++ extractTextFromDeltaContent (Some (JArray items2)).
Proof.
  cbn [extractTextFromDeltaContent]. rewrite List.map_app.
  apply join_empty_app.
Qed.

End FramerFrames.

Lemma body_without_blank_line_yields_no_token_witness :
  streamMistralReply (rt := sample_runtime) None (T "a1") true
    (with_body {| status := 200; res_text := TextRejects; res_body := None |}
       [list_byte_of_string ("data: " ++ delta_ab_json); [x0a]] EndOfStream) =
  [OnStart (T "a1"); OnDone (T "a1")].
Proof.
  apply (body_without_blank_line_yields_no_token (rt := sample_runtime)
           None (T "a1") true
           {| status := 200; res_text := TextRejects; res_body := None |}
           [list_byte_of_string ("data: " ++ delta_ab_json); [x0a]]);
    vm_compute; reflexivity.
Defined.

Lemma first_data_line_decides_witness :
  extractDataJsonFromFrame (rt := sample_runtime)
    (T "event: message" ++ LF :: T ("data: " ++ done_json) ++ LF :: T "data: x")
  = Some done_event.
Proof.
  rewrite (first_data_line_decides (rt := sample_runtime) (T "event: message")
             (T ("data: " ++ done_json) ++ LF :: T "data: x")
             ltac:(vm_compute; reflexivity)).
  replace (startsWith (trim (T "event: message")) (T "data:")) with false
    by (vm_compute; reflexivity).
  rewrite (first_data_line_decides (rt := sample_runtime)
             (T ("data: " ++ done_json)) (T "data: x")
             ltac:(vm_compute; reflexivity)).
  vm_compute. reflexivity.
Defined.

Lemma trimStart_past (x y : text) (c : N) :
  is_js_space c = false -> trimStart (x ++ c :: y) = trimStart x ++ c :: y.
Proof.
  intros Hc. induction x as [|a x IH]; simpl.
  - rewrite Hc. reflexivity.
  - destruct (is_js_space a); [exact IH | reflexivity].
Qed.

Lemma trimEnd_past (x y : text) (c : N) :
  is_js_space c = false -> trimEnd (x ++ c :: y) = x ++ c :: trimEnd y.
Proof.
  intros Hc. unfold trimEnd.
  rewrite rev_app_distr. simpl rev. rewrite <- app_assoc. simpl app.
  rewrite (trimStart_past (rev y) (rev x) c Hc).
  rewrite rev_app_distr. simpl rev. rewrite rev_involutive, <- app_assoc.
  reflexivity.
Qed.

Section DataLine.
Context {rt : JsRuntime}.

(** X6.  For a frame that is the one line [data:] followed by [payload], the
    result is [JSON.parse] of the trimmed payload; an empty payload and the
    sentinel [[DONE]], with any white space around them, give [null], as
    does what the parser rejects (its exception is caught). *)
Theorem data_line_payload (payload : text) :
  plain_line payload = true ->
  extractDataJsonFromFrame (T "data:" ++ payload) =
    if is_empty (trim payload) || text_eqb (trim payload) (T "[DONE]")
    then None
    else JSON_parse (trim payload).
Proof.
  intros Hplain. unfold extractDataJsonFromFrame.
  assert (Hline : plain_line (T "data:" ++ payload) = true).
  { unfold plain_line in *. rewrite forallb_app, Hplain. reflexivity. }
  rewrite (split_lines_plain _ Hline). cbn [List.find].
  assert (Htrim : startsWith (trim (T "data:" ++ payload)) (T "data:") = true).
  { unfold trim.
    change (trimStart (T "data:" ++ payload)) with (T "data:" ++ payload).
    change (T "data:" ++ payload) with (T "data" ++ 58 :: payload).
    rewrite (trimEnd_past (T "data") payload 58 eq_refl).
    cbn. rewrite !N.eqb_refl. simpl.
    destruct (trimEnd payload); reflexivity. }
  rewrite Htrim.
  assert (Hat : indexOf (T "data:" ++ payload) (T "data:") = Some 0%nat).
  { destruct payload; reflexivity. }
  rewrite Hat. reflexivity.
Qed.

End DataLine.

Lemma data_line_payload_witness :
  extractDataJsonFromFrame (rt := sample_runtime)
    (T "data:" ++ T "   [DONE] " ++ [9]) = None.
Proof.
  rewrite (data_line_payload (rt := sample_runtime) (T "   [DONE] " ++ [9])
             ltac:(vm_compute; reflexivity)).
  vm_compute. reflexivity.
Defined.

(** ** The dispatcher: every run *)

Section ProxyRuns.
Context {rt : JsRuntime}.

(** X8.  What [callChatCompletions] and [callConversations] return (when the fetch
    does not throw): [ok] is true exactly for a 2xx event-stream response,
    [streamable] always equals [ok], and the error text is empty exactly
    when [ok] is true. *)
Theorem call_result_invariant (which : Which) (fetched : Fetched)
    (r : CallResult) :
  call which fetched = inr r ->
  fetched = Resolves (response r)
  /\ ok r = streams fetched
  /\ streamable r = ok r
  /\ (ok r = true <-> errorText r = []).
Proof.
  destruct fetched as [e|resp]; [destruct which; discriminate|].
  unfold call, streams.
  assert (Hne : forall a b c : text, c <> [] -> text_or a (text_or b c) = [] -> False).
  { intros a b c Hc H. apply (text_or_not_empty a (text_or b c)); [|exact H].
    apply text_or_not_empty. exact Hc. }
  destruct which; simpl;
    destruct (up_ok resp); simpl;
    try destruct (is_event_stream resp); simpl;
    intros [= <-]; simpl; (split; [reflexivity|]); (split; [reflexivity|]);
    (split; [reflexivity|]); split; try discriminate; try reflexivity;
    intros H; exfalso; revert H; apply Hne; discriminate.
Qed.

Lemma attempt_inversion (upstream : Upstream) (candidate : text)
    (which : Which) (st : Loop) :
  match attempt upstream candidate which st with
  | inl (reqs, bytes) =>
      reqs = issued st ++ [(which, candidate)]
      /\ unblocked st
      /\ exists (resp : UpstreamResponse) (chunks : list (list byte)),
           upstream (length (issued st)) which candidate = Resolves resp
           /\ streams (Resolves resp) = true
           /\ up_body resp = Some (chunks, BodyEnds)
           /\ bytes = default [] (written st) ++ List.concat chunks
  | inr st' =>
      issued st' = issued st ++ [(which, candidate)]
      /\ (written st' = None -> written st = None)
      /\ (unblocked st' ->
          unblocked st
          /\ passed_over (upstream (length (issued st)) which candidate)
             = true)
  end.
Proof.
  assert (Hwrite : forall w chunks,
            default [] (write_all w chunks)
            = default [] w ++ List.concat chunks).
  { intros w [|c chunks]; simpl; [rewrite app_nil_r|]; reflexivity. }
  assert (Hmono : forall w chunks, write_all w chunks = None -> w = None).
  { intros w [|c chunks]; simpl; [tauto | discriminate]. }
  unfold attempt, unblocked, passed_over, breaks_off, declined, streams.
  destruct (upstream (length (issued st)) which candidate) as [e|resp].
  { destruct which; simpl; repeat split; tauto. }
  destruct which; simpl;
    destruct (up_ok resp) eqn:Hok; simpl;
    try (repeat split; tauto);
    destruct (is_event_stream resp) eqn:Hct; simpl;
    try (repeat split; tauto);
    destruct (up_body resp) as [[chunks [|e]]|] eqn:Hb; simpl;
    try (repeat split; tauto);
    destruct (written st) as [w|] eqn:Hw;
    destruct headers_sent_error as [m|] eqn:Hh; simpl;
    try (split; [reflexivity|]; split; [tauto|];
         exists resp, chunks; rewrite Hok, Hct, ?Hwrite;
         repeat split; (reflexivity || exact Hb));
    try (split; [reflexivity|]; split;
         [intros H; try discriminate H; try (apply Hmono in H; exact H);
          tauto
         |intros [H|H]; try discriminate H;
          try (apply Hmono in H; discriminate H); tauto]).
Qed.

Lemma run_attempts_inversion (upstream : Upstream)
    (pairs : list (Which * text)) (st : Loop) :
  match run_attempts upstream pairs st with
  | inl (reqs, bytes) =>
      exists (n : nat) (which : Which) (candidate : text)
             (resp : UpstreamResponse) (chunks : list (list byte))
             (partial : list byte),
        pairs !! n = Some (which, candidate)
        /\ reqs = issued st ++ take (S n) pairs
        /\ unblocked st
        /\ all_from passed_over upstream (length (issued st)) (take n pairs)
           = true
        /\ upstream (length (issued st) + n)%nat which candidate
           = Resolves resp
        /\ streams (Resolves resp) = true
        /\ up_body resp = Some (chunks, BodyEnds)
        /\ bytes = partial ++ List.concat chunks
        /\ (headers_sent_error <> None -> partial = [])
  | inr st' =>
      issued st' = issued st ++ pairs
      /\ (written st' = None -> written st = None)
      /\ (unblocked st' ->
          unblocked st
          /\ all_from passed_over upstream (length (issued st)) pairs = true)
  end.
Proof.
  revert st. induction pairs as [|[w c] pairs IH]; intros st.
  - simpl. rewrite app_nil_r. repeat split; tauto.
  - cbn [run_attempts].
    pose proof (attempt_inversion upstream c w st) as Ha.
    destruct (attempt upstream c w st) as [[reqs bytes]|st'].
    + destruct Ha as (-> & Hun & resp & chunks & Hup & Hs & Hb & ->).
      exists 0%nat, w, c, resp, chunks, (default [] (written st)).
      rewrite Nat.add_0_r.
      repeat split; try assumption; try reflexivity.
      intros Hh. destruct Hun as [-> | Hnone]; [reflexivity | contradiction].
    + destruct Ha as (Hiss & Hmono & Hback). specialize (IH st').
      assert (Hlen : length (issued st') = S (length (issued st))).
      { rewrite Hiss, length_app. simpl. lia. }
      destruct (run_attempts upstream pairs st') as [[reqs bytes]|st''].
      * destruct IH as (n & w' & c' & resp & chunks & partial & Hn & -> & Hun
                        & Hall & Hup & Hs & Hb & -> & Hpart).
        destruct (Hback Hun) as [Hun0 Hpass].
        exists (S n), w', c', resp, chunks, partial.
        rewrite Hlen in Hall, Hup.
        repeat split; try assumption.
        -- rewrite Hiss, <- app_assoc. reflexivity.
        -- simpl. rewrite Hpass, Hall. reflexivity.
        -- replace (length (issued st) + S n)%nat
             with (S (length (issued st)) + n)%nat by lia. exact Hup.
      * destruct IH as (-> & Hmono' & Hback'). rewrite Hlen in Hback'.
        split; [rewrite Hiss, <- app_assoc; reflexivity|].
        split; [intros H; apply Hmono, Hmono', H|].
        intros Hun. destruct (Hback' Hun) as [Hun' Hall].
        destruct (Hback Hun') as [Hun0 Hpass].
        split; [exact Hun0|]. simpl. rewrite Hpass, Hall. reflexivity.
Qed.

(** X9.  When the handler relays a body to its end, it is the body of the
    response to the last request it issued: that response has a 2xx status
    and an event-stream content type, the bytes relayed end with the bytes
    of its body, and they are exactly these bytes when the response object
    refuses headers after a write (as Node does).  Every request before it
    was declined, or its relay broke off; and the requests are an initial
    part of the attempts of the model's candidates. *)
Theorem relayed_body_is_the_last_response (model : option text)
    (upstream : Upstream) (bytes : list byte) :
  reply (handler model upstream) = Relayed bytes ->
  exists (candidates : list text) (n : nat) (which : Which)
         (candidate : text) (resp : UpstreamResponse)
         (chunks : list (list byte)) (partial : list byte),
    families (requested model) = Some candidates
    /\ attempts candidates !! n = Some (which, candidate)
    /\ requests (handler model upstream) = take (S n) (attempts candidates)
    /\ all_from passed_over upstream 0 (take n (attempts candidates)) = true
    /\ upstream n which candidate = Resolves resp
    /\ streams (Resolves resp) = true
    /\ up_body resp = Some (chunks, BodyEnds)
    /\ bytes = partial ++ List.concat chunks
    /\ (headers_sent_error <> None -> partial = []).
Proof.
  unfold handler. cbv zeta.
  destruct (families (requested model)) as [cs|]; [|discriminate].
  rewrite for_families_flat.
  pose proof (run_attempts_inversion upstream (attempts cs)
                {| issued := []; lastErrorText := []; written := None |})
    as H.
  destruct (run_attempts upstream (attempts cs) _) as [[reqs b]|st].
  - cbn [reply requests]. intros [= <-].
    destruct H as (n & w & c & resp & chunks & partial & Hn & -> & _ & Hall
                   & Hup & Hs & Hb & -> & Hpart).
    exists cs, n, w, c, resp, chunks, partial. repeat split; assumption.
  - cbn [reply]. destruct (written st); discriminate.
Qed.


End ProxyRuns.

(** X11.  Every candidate listed in [FAMILY_ALIASES] is a member of [PREFER_CHAT]:
    for a model that is a key of the table, each candidate is tried with
    the chat shape first and the conversations shape second. *)
Theorem known_models_try_chat_first (model : text) (candidates : list text) :
  FAMILY_ALIASES !! model = Some candidates ->
  families model = Some candidates
  /\ attempts candidates =
       List.flat_map (fun c => [(chat, c); (conv, c)]) candidates.
Proof.
  intros H. split.
  - unfold families, FAMILY_ALIASES_get. rewrite H. reflexivity.
  - apply alias_entries in H as [_ H].
    induction H as [|c cs Hc _ IH]; [reflexivity|].
    unfold attempts in *. cbn [List.flat_map]. rewrite IH.
    unfold order.
    rewrite (bool_decide_eq_true_2 _ (proj2 (prefer_chat_names c) Hc)).
    reflexivity.
Qed.

Section ProxyBounds.
Context {rt : JsRuntime}.

End ProxyBounds.

Lemma known_models_try_chat_first_witness :
  attempts [T "codestral-latest"; T "codestral"] =
  [(chat, T "codestral-latest"); (conv, T "codestral-latest");
   (chat, T "codestral"); (conv, T "codestral")].
Proof.
  apply (known_models_try_chat_first (T "codestral-latest")
           [T "codestral-latest"; T "codestral"]).
  vm_compute. reflexivity.
Defined.

(** ** Whitespace and truncation *)

(** ** [trim] *)

Lemma trimStart_suffix (s : text) : exists pre, s = pre ++ trimStart s.
Proof.
  induction s as [|c r [pre IH]]; [exists []; reflexivity|].
  simpl. destruct (is_js_space c).
  - exists (c :: pre). simpl. f_equal. exact IH.
  - exists []. reflexivity.
Qed.

Lemma trimStart_head (s : text) :
  match trimStart s with
  | [] => True
  | c :: _ => is_js_space c = false
  end.
Proof.
  induction s as [|c r IH]; [exact I|]. simpl.
  destruct (is_js_space c) eqn:E; [exact IH | exact E].
Qed.

Lemma trimStart_fixed (s : text) :
  match s with [] => True | c :: _ => is_js_space c = false end ->
  trimStart s = s.
Proof. destruct s as [|c r]; [reflexivity|]. simpl. intros ->. reflexivity. Qed.

Lemma trimStart_idempotent (s : text) : trimStart (trimStart s) = trimStart s.
Proof. apply trimStart_fixed, trimStart_head. Qed.

Lemma trimEnd_prefix (s : text) : exists post, s = trimEnd s ++ post.
Proof.
  unfold trimEnd. destruct (trimStart_suffix (rev s)) as [pre H].
  exists (rev pre). rewrite <- rev_app_distr, <- H, rev_involutive.
  reflexivity.
Qed.

Lemma trimEnd_keeps_head (c : N) (r : text) :
  is_js_space c = false -> exists r', trimEnd (c :: r) = c :: r'.
Proof.
  intros Hc. unfold trimEnd. simpl rev.
  assert (H : forall l : text, exists l', trimStart (l ++ [c]) = l' ++ [c]).
  { induction l as [|x l [l' IH]]; simpl.
    - rewrite Hc. exists []. reflexivity.
    - destruct (is_js_space x); [exists l'; exact IH|].
      exists (x :: l). reflexivity. }
  destruct (H (rev r)) as [l' ->]. rewrite rev_app_distr. simpl.
  eexists. reflexivity.
Qed.

Lemma trim_idempotent (s : text) : trim (trim s) = trim s.
Proof.
  unfold trim.
  assert (Hstart : trimStart (trimEnd (trimStart s)) = trimEnd (trimStart s)).
  { pose proof (trimStart_head s) as Hh.
    destruct (trimStart s) as [|c r]; [reflexivity|].
    destruct (trimEnd_keeps_head c r Hh) as [r' ->].
    simpl. rewrite Hh. reflexivity. }
  rewrite Hstart. unfold trimEnd at 1 2. rewrite rev_involutive.
  rewrite trimStart_idempotent. reflexivity.
Qed.

Lemma trim_length (s : text) : (length (trim s) <= length s)%nat.
Proof.
  unfold trim.
  destruct (trimStart_suffix s) as [pre H].
  destruct (trimEnd_prefix (trimStart s)) as [post H'].
  rewrite H at 2. rewrite H' at 2. rewrite !length_app. lia.
Qed.

Lemma trim_Forall (P : N -> Prop) (s : text) : Forall P s -> Forall P (trim s).
Proof.
  unfold trim. intros H.
  destruct (trimStart_suffix s) as [pre Hs].
  destruct (trimEnd_prefix (trimStart s)) as [post Hs'].
  rewrite Hs in H. apply Forall_app in H as [_ H].
  rewrite Hs' in H. apply Forall_app in H as [H _]. exact H.
Qed.

(** ** [normalizeWhitespace] *)

Lemma strip_blanks_length (pending s : text) :
  (length (strip_blanks_before_LF pending s) <= length pending + length s)%nat.
Proof.
  revert pending. induction s as [|c r IH]; intros pending; simpl; [lia|].
  destruct (is_blank c).
  - specialize (IH (pending ++ [c])). rewrite length_app in IH. simpl in IH.
    lia.
  - destruct (c =? LF); simpl.
    + specialize (IH []). simpl in IH. lia.
    + rewrite length_app. simpl. specialize (IH []). simpl in IH. lia.
Qed.

Lemma strip_blanks_Forall (P : N -> Prop) (pending s : text) :
  Forall P pending -> Forall P s ->
  Forall P (strip_blanks_before_LF pending s).
Proof.
  revert pending. induction s as [|c r IH]; intros pending Hp Hs; simpl;
    [exact Hp|].
  apply Forall_cons in Hs as [Hc Hr].
  destruct (is_blank c).
  - apply IH; [|exact Hr]. apply Forall_app. split; [exact Hp|].
    constructor; [exact Hc | constructor].
  - destruct (c =? LF) eqn:E.
    + apply N.eqb_eq in E. subst c. constructor; [exact Hc|].
      apply IH; [constructor | exact Hr].
    + apply Forall_app. split; [exact Hp|]. constructor; [exact Hc|].
      apply IH; [constructor | exact Hr].
Qed.

Lemma collapse_LF_length (run : nat) (s : text) :
  (length (collapse_LF run s) <= length s)%nat.
Proof.
  revert run. induction s as [|c r IH]; intros run; simpl; [lia|].
  destruct (c =? LF).
  - destruct (run <? 2)%nat; simpl; specialize (IH (S run)); lia.
  - simpl. specialize (IH 0%nat). lia.
Qed.

Lemma collapse_LF_Forall (P : N -> Prop) (run : nat) (s : text) :
  Forall P s -> Forall P (collapse_LF run s).
Proof.
  revert run. induction s as [|c r IH]; intros run Hs; simpl; [constructor|].
  apply Forall_cons in Hs as [Hc Hr].
  destruct (c =? LF) eqn:E.
  - apply N.eqb_eq in E. subst c.
    destruct (run <? 2)%nat; [constructor; [exact Hc|]|]; apply IH; exact Hr.
  - constructor; [exact Hc | apply IH; exact Hr].
Qed.

(** X14.  The result of [normalizeWhitespace] holds no carriage return, is at most
    as long as its argument, and is left unchanged by [trim]. *)
Theorem normalizeWhitespace_output (s : text) :
  Forall (fun c => c <> CR) (normalizeWhitespace s)
  /\ (length (normalizeWhitespace s) <= length s)%nat
  /\ trim (normalizeWhitespace s) = normalizeWhitespace s.
Proof.
  unfold normalizeWhitespace. repeat split.
  - apply trim_Forall, collapse_LF_Forall, strip_blanks_Forall; [constructor|].
    unfold remove_CR. apply List.Forall_forall. intros c Hc.
    apply filter_In in Hc as [_ Hc]. apply negb_true_iff in Hc.
    apply N.eqb_neq. exact Hc.
  - etransitivity; [apply trim_length|].
    etransitivity; [apply collapse_LF_length|].
    etransitivity; [apply strip_blanks_length|]. simpl.
    unfold remove_CR. apply filter_length_le.
  - apply trim_idempotent.
Qed.

Example normalizeWhitespace_sample :
  normalizeWhitespace
    (T "  a " ++ [9; LF] ++ T "b" ++ [CR; LF; LF; LF; LF] ++ T "c d " ++ [LF])
  = T "a" ++ [LF] ++ T "b" ++ [LF; LF] ++ T "c d".
Proof. vm_compute. reflexivity. Qed.

Section AttachmentFacts.
Variable toLocaleString : N -> text.
Variable extractTextFromFile : text -> text -> text -> text.

(** X15.  [truncateForModel] keeps the first [MAX_CHARS_PER_FILE] code units of its
    argument; an argument within the cap is returned as it is, and a longer
    one gives a result that is longer than the cap, by at least the 29 code
    units of the marker's fixed text: the per-file cap bounds the text kept,
    not the text returned. *)
Theorem truncateForModel_keeps_the_head (s : text) (filename : option text) :
  slice_to MAX_CHARS_PER_FILE ((truncateForModel toLocaleString) s filename) =
    slice_to MAX_CHARS_PER_FILE s
  /\ (text_length s <= MAX_CHARS_PER_FILE -> (truncateForModel toLocaleString) s filename = s)
  /\ (MAX_CHARS_PER_FILE < text_length s ->
      MAX_CHARS_PER_FILE + 29 <= text_length ((truncateForModel toLocaleString) s filename)).
Proof.
  unfold truncateForModel, text_length, slice_to.
  destruct (N.leb_spec (N.of_nat (length s)) MAX_CHARS_PER_FILE) as [Hle|Hgt].
  - split; [reflexivity|]. split; [reflexivity | lia].
  - split; [|split; [lia|]].
    + apply take_app_length'. rewrite length_take.
      symmetry. apply Nat.min_l. clear -Hgt. lia.
    + intros _. rewrite !length_app, length_take.
      change (length (T "[...truncated ")) with 14%nat.
      change (length (T " chars from ")) with 12%nat.
      change (length (T "]")) with 1%nat.
      change (length [LF; LF]) with 2%nat. lia.
Qed.

Lemma chunk_not_empty (a : Attachment) : 0 < text_length ((chunk_of toLocaleString extractTextFromFile) a).
Proof. unfold chunk_of, text_length. simpl. lia. Qed.

(** X16.  The extraction loop keeps [totalChars] within
    [MAX_TOTAL_ATTACHMENT_CHARS]; [extractedText] exceeds the cap by at most
    the length of the omission marker; and when the chunks of all text
    attachments fit under the cap together, [extractedText] is their
    concatenation, in order. *)
Theorem extracted_text_is_capped (attachments : list Attachment) :
  let result :=
    (extract_loop toLocaleString extractTextFromFile) attachments {| extractedText := []; totalChars := 0 |} in
  totalChars result <= MAX_TOTAL_ATTACHMENT_CHARS
  /\ text_length (extractedText result)
     <= MAX_TOTAL_ATTACHMENT_CHARS + text_length omitted_marker
  /\ (text_length (List.concat (List.map (chunk_of toLocaleString extractTextFromFile) attachments))
      <= MAX_TOTAL_ATTACHMENT_CHARS ->
      extractedText result = List.concat (List.map (chunk_of toLocaleString extractTextFromFile) attachments)).
Proof.
  assert (H : forall atts st, in_step st ->
    let result := (extract_loop toLocaleString extractTextFromFile) atts st in
    totalChars result <= MAX_TOTAL_ATTACHMENT_CHARS
    /\ text_length (extractedText result)
       <= MAX_TOTAL_ATTACHMENT_CHARS + text_length omitted_marker
    /\ (totalChars st + text_length (List.concat (List.map (chunk_of toLocaleString extractTextFromFile) atts))
        <= MAX_TOTAL_ATTACHMENT_CHARS ->
        extractedText result =
          extractedText st ++ List.concat (List.map (chunk_of toLocaleString extractTextFromFile) atts))).
  { induction atts as [|a atts IH]; intros st [Heq Hle]; cbv zeta.
    - simpl. rewrite app_nil_r. split; [exact Hle|].
      split; [rewrite <- Heq; lia | reflexivity].
    - cbn [extract_loop List.map List.concat].
      assert (Hlen : text_length ((chunk_of toLocaleString extractTextFromFile) a ++ List.concat (List.map (chunk_of toLocaleString extractTextFromFile) atts))
                     = text_length ((chunk_of toLocaleString extractTextFromFile) a)
                       + text_length (List.concat (List.map (chunk_of toLocaleString extractTextFromFile) atts))).
      { unfold text_length. rewrite length_app. lia. }
      destruct (N.ltb_spec MAX_TOTAL_ATTACHMENT_CHARS
                  (totalChars st + text_length ((chunk_of toLocaleString extractTextFromFile) a))) as [Hover|Hfits].
      + destruct (N.ltb_spec 0
                    (N.max 0 (MAX_TOTAL_ATTACHMENT_CHARS - totalChars st)))
          as [Hroom|Hnone]; cbn [totalChars extractedText].
        * split; [lia|]. split; [|rewrite Hlen; lia].
          unfold text_length in *. rewrite !length_app. unfold slice_to.
          rewrite length_take. lia.
        * split; [exact Hle|]. split; [rewrite <- Heq; lia|].
          rewrite Hlen. lia.
      + specialize (IH {| extractedText := extractedText st ++ (chunk_of toLocaleString extractTextFromFile) a;
                          totalChars := totalChars st + text_length ((chunk_of toLocaleString extractTextFromFile) a) |}).
        destruct IH as (H1 & H2 & H3).
        { split; cbn [totalChars extractedText]; [|exact Hfits].
          rewrite Heq. unfold text_length. rewrite length_app. lia. }
        split; [exact H1|]. split; [exact H2|].
        intros Hsum. cbn [totalChars extractedText] in H3.
        rewrite H3 by (rewrite Hlen in Hsum; lia).
        rewrite <- app_assoc. reflexivity. }
  specialize (H attachments {| extractedText := []; totalChars := 0 |}).
  cbv zeta in *. destruct H as (H1 & H2 & H3).
  { split; cbn; [reflexivity | unfold MAX_TOTAL_ATTACHMENT_CHARS; lia]. }
  split; [exact H1|]. split; [exact H2|]. intros Hsum.
  apply H3. cbn [totalChars]. lia.
Qed.

(** X17.  Once [totalChars] has reached the cap exactly, the next attachment ends
    the loop and nothing is appended, not even the omission marker ([room]
    is 0): the remaining attachments are dropped without a trace in
    [extractedText]. *)
Theorem full_cap_drops_the_rest_silently (attachment : Attachment)
    (rest : list Attachment) (st : Extracted) :
  totalChars st = MAX_TOTAL_ATTACHMENT_CHARS ->
  (extract_loop toLocaleString extractTextFromFile) (attachment :: rest) st = st.
Proof.
  intros Hfull. cbn [extract_loop].
  pose proof (chunk_not_empty attachment) as Hne.
  destruct (N.ltb_spec MAX_TOTAL_ATTACHMENT_CHARS
              (totalChars st + text_length ((chunk_of toLocaleString extractTextFromFile) attachment))); [|lia].
  rewrite Hfull, N.sub_diag. reflexivity.
Qed.

End AttachmentFacts.

(** ** The attachment block *)

(** X13.  [convInputs] has one entry per message, with the same role, in the same
    order; string content is passed as it is, vision content becomes the
    trimmed join of its parts ([stringifyContent]).  Unlike [chatMessages]
    it drops no message. *)
Theorem convInputs_keep_every_message (messages : list ChatMessagePayload) :
  List.map input_role (convInputs messages) = List.map role messages
  /\ Forall2 (fun m input =>
                match content m with
                | StringContent s => input_content input = s
                | VisionContent items =>
                    input_content input
                    = trim (join [LF] (List.map item_text items))
                    /\ trim (input_content input) = input_content input
                end)
       messages (convInputs messages).
Proof.
  split.
  - unfold convInputs. rewrite List.map_map. reflexivity.
  - induction messages as [|m ms IH]; [constructor|].
    constructor; [|exact IH]. simpl.
    destruct (content m); [reflexivity|]. simpl.
    split; [reflexivity | apply trim_idempotent].
Qed.

Lemma last_snoc_filter (ms : list ChatMessagePayload) (m : ChatMessagePayload) :
  lastUserMessage (m :: ms) =
  match lastUserMessage ms with
  | Some x => Some x
  | None => if is_user m then Some m else None
  end.
Proof.
  unfold lastUserMessage. simpl.
  destruct (is_user m); [|destruct (last _); reflexivity].
  destruct (List.filter is_user ms) as [|y l] eqn:E; [reflexivity|].
  change (last (m :: y :: l)) with (last (y :: l)).
  destruct (last (y :: l)) eqn:E'; [reflexivity|].
  apply last_None in E'. discriminate.
Qed.

Lemma last_user_found (ms : list ChatMessagePayload) :
  match lastUserMessage ms with
  | Some m =>
      exists i, lastIndexOf_user ms = Some i /\ ms !! i = Some m
                /\ role m = user
  | None => lastIndexOf_user ms = None
  end.
Proof.
  induction ms as [|m ms IH]; [reflexivity|].
  rewrite last_snoc_filter. cbn [lastIndexOf_user].
  destruct (lastUserMessage ms) as [x|].
  - destruct IH as (i & -> & Hi & Hr). exists (S i). repeat split; assumption.
  - rewrite IH. unfold is_user. destruct (role m) eqn:Hr; try reflexivity.
    exists 0%nat. repeat split. exact Hr.
Qed.

Lemma lastIndexOf_user_roles (a b : list ChatMessagePayload) :
  List.map role a = List.map role b -> lastIndexOf_user a = lastIndexOf_user b.
Proof.
  revert b. induction a as [|x a IH]; intros [|y b]; try discriminate;
    [reflexivity|].
  simpl. intros [= Hr Hrest]. rewrite (IH b Hrest).
  unfold is_user. rewrite Hr. reflexivity.
Qed.

Section MergeFacts.
Variable toLocaleString : N -> text.
Variable extractTextFromFile : text -> text -> text -> text.

(** One replacement of the last user message. *)
Lemma replace_last_user_spec (ms : list ChatMessagePayload)
    (m : ChatMessagePayload) (c : MessageContent) (i : nat) :
  lastIndexOf_user ms = Some i -> ms !! i = Some m ->
  replace_last_user ms m c = <[i := {| role := role m; content := c |}]> ms
  /\ length (replace_last_user ms m c) = length ms
  /\ List.map role (replace_last_user ms m c) = List.map role ms
  /\ (forall j, j <> i -> replace_last_user ms m c !! j = ms !! j).
Proof.
  intros Hi Hm. unfold replace_last_user. rewrite Hi.
  split; [reflexivity|]. split; [apply length_insert|]. split.
  - apply list_eq. intros j. rewrite !list_lookup_fmap.
    destruct (decide (j = i)) as [->|Hne].
    + rewrite list_lookup_insert_eq by (apply lookup_lt_Some in Hm; exact Hm).
      rewrite Hm. reflexivity.
    + rewrite list_lookup_insert_ne by congruence. reflexivity.
  - intros j Hne. apply list_lookup_insert_ne. congruence.
Qed.

Lemma last_user_of_pushed (ms : list ChatMessagePayload)
    (u : ChatMessagePayload) :
  role u = user ->
  lastUserMessage (ms ++ [u]) = Some u
  /\ lastIndexOf_user (ms ++ [u]) = Some (length ms).
Proof.
  intros Hu. assert (His : is_user u = true) by (unfold is_user; rewrite Hu; reflexivity).
  split.
  - unfold lastUserMessage. rewrite List.filter_app. simpl. rewrite His.
    apply last_snoc.
  - induction ms as [|m ms IH]; simpl; [rewrite His; reflexivity|].
    rewrite IH. reflexivity.
Qed.

(** X18.  The attachment block changes [chatMessages] in one place only.  When
    there is a message with the role user, the list keeps its length and
    its roles, and every message other than the last user message is
    untouched; when there is none, the list is left as it is or one user
    message with string content is pushed at its end. *)
Theorem only_the_last_user_message_changes (model : text)
    (chatMessages : list ChatMessagePayload) (attachments : list Attachment) :
  match lastIndexOf_user chatMessages with
  | Some i =>
      length ((merge_attachments toLocaleString extractTextFromFile) model chatMessages attachments) = length chatMessages
      /\ List.map role ((merge_attachments toLocaleString extractTextFromFile) model chatMessages attachments)
         = List.map role chatMessages
      /\ (forall j, j <> i ->
            (merge_attachments toLocaleString extractTextFromFile) model chatMessages attachments !! j = chatMessages !! j)
  | None =>
      (merge_attachments toLocaleString extractTextFromFile) model chatMessages attachments = chatMessages
      \/ exists t : text,
           (merge_attachments toLocaleString extractTextFromFile) model chatMessages attachments
           = chatMessages ++ [{| role := user; content := StringContent t |}]
  end.
Proof.
  unfold merge_attachments.
  destruct attachments as [|a0 atts0].
  { destruct (lastIndexOf_user chatMessages); [|left; reflexivity].
    repeat split; reflexivity. }
  cbv zeta.
  generalize (List.filter is_image (a0 :: atts0)) as images.
  generalize (extractedText
                (extract_loop toLocaleString extractTextFromFile
                   (List.filter (fun att => negb (is_image att)) (a0 :: atts0))
                   {| extractedText := []; totalChars := 0 |})) as e.
  intros e images.
  generalize (negb (length images =? 0)%nat) as has_images.
  generalize (includes model (T "pixtral")) as pixtral.
  generalize (image_note (length images) model) as note.
  intros note pixtral has_images.
  pose proof (last_user_found chatMessages) as Hlast.
  destruct (lastUserMessage chatMessages) as [m|] eqn:Hm.
  - destruct Hlast as (i & Hi & Hlook & Hrole). rewrite Hi.
    assert (Hstep : forall (ms : list ChatMessagePayload) c,
      length ms = length chatMessages
      /\ List.map role ms = List.map role chatMessages
      /\ (forall j, j <> i -> ms !! j = chatMessages !! j) ->
      forall m', ms !! i = Some m' ->
      length (replace_last_user ms m' c) = length chatMessages
      /\ List.map role (replace_last_user ms m' c) = List.map role chatMessages
      /\ (forall j, j <> i -> replace_last_user ms m' c !! j = chatMessages !! j)).
    { intros ms c (Hl & Hr & Ho) m' Hm'.
      assert (Hi' : lastIndexOf_user ms = Some i)
        by (rewrite (lastIndexOf_user_roles ms chatMessages Hr); exact Hi).
      destruct (replace_last_user_spec ms m' c i Hi' Hm') as (_ & H1 & H2 & H3).
      split; [congruence|]. split; [congruence|].
      intros j Hj. rewrite H3 by exact Hj. apply Ho. exact Hj. }
    assert (Hid : length chatMessages = length chatMessages
                  /\ List.map role chatMessages = List.map role chatMessages
                  /\ (forall j, j <> i -> chatMessages !! j = chatMessages !! j))
      by (repeat split; reflexivity).
    match goal with
    | |- context [if has_images && negb pixtral then _ else ?x] =>
        set (merged := x)
    end.
    assert (Hmerged : length merged = length chatMessages
                      /\ List.map role merged = List.map role chatMessages
                      /\ (forall j, j <> i -> merged !! j = chatMessages !! j)).
    { subst merged.
      destruct (has_images && pixtral).
      - apply Hstep; [exact Hid | exact Hlook].
      - destruct (is_empty e); [exact Hid|].
        apply Hstep; [exact Hid | exact Hlook]. }
    destruct (has_images && negb pixtral); [|exact Hmerged].
    pose proof (last_user_found merged) as Hlast'.
    destruct (lastUserMessage merged) as [m'|]; [|exact Hmerged].
    destruct Hlast' as (i' & Hi' & Hlook' & _).
    rewrite (lastIndexOf_user_roles merged chatMessages (proj1 (proj2 Hmerged))),
      Hi in Hi'.
    injection Hi' as <-.
    apply Hstep; assumption.
  - rewrite Hlast.
    assert (Hnone : lastUserMessage chatMessages = None) by exact Hm.
    assert (Hpushed : forall t,
      match lastUserMessage (push_extracted chatMessages t) with
      | Some lastUser =>
          replace_last_user (push_extracted chatMessages t) lastUser
            (mergeWithAdditionalText (content lastUser) note)
      | None => push_extracted chatMessages t
      end
      = chatMessages
        ++ [{| role := user;
               content := mergeWithAdditionalText (StringContent (trim t)) note |}]).
    { intros t. unfold push_extracted.
      destruct (last_user_of_pushed chatMessages
                  {| role := user; content := StringContent (trim t) |} eq_refl)
        as [-> Hidx].
      unfold replace_last_user. rewrite Hidx. cbn [role content].
      rewrite insert_app_r_alt by lia. rewrite Nat.sub_diag. reflexivity. }
    assert (Hstr : forall t, exists t',
              mergeWithAdditionalText (StringContent t) note = StringContent t').
    { intros t. unfold mergeWithAdditionalText.
      destruct (is_empty note); eexists; reflexivity. }
    destruct has_images, pixtral; cbn [andb negb]; rewrite ?Hm.
    + destruct (is_empty e); [left; reflexivity|].
      right. eexists. reflexivity.
    + destruct (is_empty e).
      * rewrite Hm. left. reflexivity.
      * rewrite Hpushed. destruct (Hstr (trim e)) as [t' ->].
        right. eexists. reflexivity.
    + destruct (is_empty e); [left; reflexivity|]. right. eexists. reflexivity.
    + destruct (is_empty e); [left; reflexivity|]. right. eexists. reflexivity.
Qed.

Lemma chatMessages_all_strings (instructions : text)
    (messages : list ChatMessagePayload) :
  Forall (fun m => has_string_content m = true)
    (chatMessages instructions messages).
Proof.
  unfold chatMessages. apply Forall_app. split.
  - destruct (is_empty instructions); repeat constructor.
  - apply List.Forall_forall. intros m Hin.
    apply in_map_iff in Hin as (x & <- & Hx).
    apply filter_In in Hx as [_ Hx]. exact Hx.
Qed.

(** X19.  For a model whose name does not contain [pixtral], every message of
    [chatMessages] still has string content after the attachment block:
    vision content is built for pixtral models only. *)
Theorem without_pixtral_contents_stay_strings (model instructions : text)
    (messages : list ChatMessagePayload) (attachments : list Attachment) :
  includes model (T "pixtral") = false ->
  Forall (fun m => has_string_content m = true)
    ((merge_attachments toLocaleString extractTextFromFile) model (chatMessages instructions messages) attachments).
Proof.
  intros Hpix.
  pose proof (chatMessages_all_strings instructions messages) as Hall.
  generalize dependent (chatMessages instructions messages).
  intros ms Hall. unfold merge_attachments.
  destruct attachments as [|a0 atts0]; [exact Hall|].
  cbv zeta. rewrite Hpix. rewrite andb_false_r. cbn [negb]. rewrite andb_true_r.
  generalize (List.filter is_image (a0 :: atts0)) as images.
  generalize (extractedText
                (extract_loop toLocaleString extractTextFromFile
                   (List.filter (fun att => negb (is_image att)) (a0 :: atts0))
                   {| extractedText := []; totalChars := 0 |})) as e.
  intros e images.
  assert (Hmerge : forall c extra, (match c with StringContent _ => true
                                    | VisionContent _ => false end) = true ->
            has_string_content
              {| role := user; content := mergeWithAdditionalText c extra |}
            = true).
  { intros [s|items] extra H; [|discriminate].
    unfold mergeWithAdditionalText. destruct (is_empty extra); reflexivity. }
  assert (Hstep : forall (l : list ChatMessagePayload) extra,
            Forall (fun m => has_string_content m = true) l ->
            Forall (fun m => has_string_content m = true)
              match lastUserMessage l with
              | Some lastUser =>
                  replace_last_user l lastUser
                    (mergeWithAdditionalText (content lastUser) extra)
              | None => l
              end).
  { intros l extra Hl. pose proof (last_user_found l) as Hf.
    destruct (lastUserMessage l) as [m|]; [|exact Hl].
    destruct Hf as (i & Hi & Hlook & Hrole).
    unfold replace_last_user. rewrite Hi. apply Forall_insert; [exact Hl|].
    rewrite Hrole. apply Hmerge.
    rewrite Forall_lookup in Hl. specialize (Hl i m Hlook).
    unfold has_string_content in Hl. exact Hl. }
  assert (Hmerged : Forall (fun m => has_string_content m = true)
            (if is_empty e then ms
             else match lastUserMessage ms with
                  | Some lastUser =>
                      replace_last_user ms lastUser
                        (mergeWithAdditionalText (content lastUser) e)
                  | None => push_extracted ms e
                  end)).
  { destruct (is_empty e); [exact Hall|].
    pose proof (Hstep ms e Hall) as H.
    destruct (lastUserMessage ms); [exact H|].
    unfold push_extracted. apply Forall_app. split; [exact Hall|].
    repeat constructor. }
  destruct (negb (length images =? 0)%nat); [|exact Hmerged].
  apply Hstep. exact Hmerged.
Qed.

End MergeFacts.

(** ** Metrics, the evaluation runner and the other exports *)

(** X20.  [estimateTokensFromChars]: 0 for a count that is not positive; for a
    positive count [n] the least integer [t] with [n <= 4 * t], which is at
    least 1; and the estimate is monotone in the count. *)
Theorem estimateTokensFromChars_bounds (charCount : Z) :
  ((charCount <= 0 -> estimateTokensFromChars charCount = 0)
   /\ (0 < charCount ->
       1 <= estimateTokensFromChars charCount
       /\ charCount <= 4 * estimateTokensFromChars charCount
                    < charCount + 4)
   /\ (forall more : Z,
         charCount <= more ->
         estimateTokensFromChars charCount <= estimateTokensFromChars more))%Z.
Proof.
  unfold estimateTokensFromChars. split; [|split].
  - intros H. destruct (Z.leb_spec charCount 0); [reflexivity | lia].
  - intros H. destruct (Z.leb_spec charCount 0); [lia|].
    pose proof (Z.div_mod (charCount + 3) 4 ltac:(lia)).
    pose proof (Z.mod_pos_bound (charCount + 3) 4 ltac:(lia)). lia.
  - intros more Hle.
    destruct (Z.leb_spec charCount 0), (Z.leb_spec more 0); try lia.
    pose proof (Z.div_le_mono (charCount + 3) (more + 3) 4 ltac:(lia) ltac:(lia)).
    lia.
Qed.

Section MetricFacts.
Variable Millis : Type.

(** X21.  [recordMistralMetric] puts the new entry first, keeps the entries that
    were there in their order behind it, and keeps at most [MAX_METRICS]
    entries, dropping the oldest; the entry has the id given, or else the
    generated one. *)
Theorem recordMistralMetric_keeps_newest (generated : text)
    (metric : MetricInput Millis) (cache : list (MistralCallMetric Millis)) :
  let cache' := recordMistralMetric Millis generated metric cache in
  length cache' = Nat.min MAX_METRICS (S (length cache))
  /\ (exists entry,
        cache' !! 0%nat = Some entry
        /\ metric_id Millis entry = default generated (given_id Millis metric)
        /\ success Millis entry = given_success Millis metric
        /\ tokensEstimated Millis entry = given_tokensEstimated Millis metric)
  /\ (forall i : nat,
        (S i < MAX_METRICS)%nat -> cache' !! S i = cache !! i)
  /\ (forall i : nat, (MAX_METRICS <= i)%nat -> cache' !! i = None).
Proof.
  cbv zeta. unfold recordMistralMetric. repeat split.
  - rewrite length_take. simpl. reflexivity.
  - eexists. split; [reflexivity|]. repeat split.
  - intros i Hi. rewrite lookup_take_lt by exact Hi. reflexivity.
  - intros i Hi. apply lookup_take_ge. exact Hi.
Qed.

Context {rt : JsRuntime}.
Variable clock : nat -> Millis * Millis.
Variable metric_ids : nat -> text.

(** Calls that are not final only fill the buffer. *)
Lemma eval_calls_quiet (prompt model : text) (calls : list Callback)
    (k : nat) (st : EvalState Millis) :
  Forall (fun c => is_final c = false) calls ->
  (eval_calls Millis clock metric_ids) prompt model k calls st =
    {| buffer := buffer Millis st ++ List.concat (tokens_of calls);
       settled := settled Millis st;
       metricsCache := metricsCache Millis st |}.
Proof.
  revert k st. induction calls as [|c calls IH]; intros k st H.
  - simpl. rewrite app_nil_r. destruct st; reflexivity.
  - apply Forall_cons in H as [Hc H]. cbn [eval_calls].
    rewrite (IH _ _ H).
    destruct c; try discriminate Hc; simpl.
    + reflexivity.
    + rewrite <- app_assoc. reflexivity.
Qed.

(** Once settled, the promise keeps its outcome. *)
Lemma eval_calls_settled (prompt model : text) (calls : list Callback)
    (k : nat) (st : EvalState Millis) (s : Settled Millis) :
  settled Millis st = Some s ->
  settled Millis (eval_calls Millis clock metric_ids prompt model k calls st)
  = Some s.
Proof.
  revert k st. induction calls as [|c calls IH]; intros k st H; [exact H|].
  cbn [eval_calls]. apply IH.
  destruct c; simpl; unfold settle; try destruct (js_String errText);
    rewrite ?H; try reflexivity; exact H.
Qed.

Lemma eval_calls_app (prompt model : text) (l1 l2 : list Callback)
    (k : nat) (st : EvalState Millis) :
  eval_calls Millis clock metric_ids prompt model k (l1 ++ l2) st =
  eval_calls Millis clock metric_ids prompt model (k + length l1) l2
    (eval_calls Millis clock metric_ids prompt model k l1 st).
Proof.
  revert k st. induction l1 as [|x l1 IH]; intros k st; simpl.
  - rewrite Nat.add_0_r. reflexivity.
  - rewrite IH. f_equal. lia.
Qed.

(** X22.  The promise of [runEvalForModel] is settled by the first call
    among [onDone], [onError], [onAbort], and later calls do not change it:
    [onDone] resolves it with the trimmed concatenation of the tokens
    received before it and the token estimate of prompt plus answer,
    [onAbort] rejects it with [Eval aborted], and [onError] rejects it with
    the error text as a string.  When the error text is an object that
    cannot be converted to a string, [new Error(errText)] throws, [reject]
    is not called, and with no call after it the promise stays pending. *)
Theorem eval_resolves_with_the_tokens_before_the_first_final_call
    (prompt model : text) (before after : list Callback) (c : Callback)
    (cache : list (MistralCallMetric Millis)) :
  Forall (fun c => is_final c = false) before ->
  is_final c = true ->
  let answer := List.concat (tokens_of before) in
  let promise :=
    settled Millis
      (eval_calls Millis clock metric_ids prompt model 0
         (before ++ c :: after)
         {| buffer := []; settled := None; metricsCache := cache |}) in
  match c with
  | OnError errText _ =>
      match js_String errText with
      | Some message => promise = Some (Rejected Millis message)
      | None => after = [] -> promise = None
      end
  | OnAbort _ => promise = Some (Rejected Millis (T "Eval aborted"))
  | _ =>
      promise =
      Some
        (Resolved Millis
           {| eval_model := model;
              eval_content := trim answer;
              eval_durationMs := snd (clock (length before));
              eval_tokensEstimated :=
                estimateTokensFromChars
                  (Z.of_nat (length prompt) + Z.of_nat (length answer)) |})
  end.
Proof.
  intros Hquiet Hc answer promise. subst promise.
  rewrite eval_calls_app, (eval_calls_quiet _ _ _ _ _ Hquiet).
  cbn [eval_calls].
  destruct c as [a|chunk a|a|errText a|a]; try discriminate Hc.
  - apply eval_calls_settled. reflexivity.
  - destruct (js_String errText) as [message|] eqn:Hs.
    + apply eval_calls_settled. simpl. rewrite Hs. reflexivity.
    + intros ->. simpl. rewrite Hs. reflexivity.
  - apply eval_calls_settled. reflexivity.
Qed.

(** Every error text that [streamMistralReply] passes to [onError] is a
    string, except the one built from the body of a response that is not
    ok. *)
Lemma reply_error_texts (preset : option text) (generated : text)
    (hasOnAbort : bool) (fetched : FetchOutcome) :
  (forall res : Response,
      fetched = FetchResolves res -> res_ok res = false ->
      js_String (api_error_text res) <> None) ->
  Forall (fun c => match c with
                   | OnError errText _ => js_String errText <> None
                   | _ => True
                   end)
    (streamMistralReply preset generated hasOnAbort fetched).
Proof.
  intros Hconv. unfold streamMistralReply. constructor; [exact I|].
  destruct fetched as [[m|m|s]|res|].
  - unfold call_onAbort. destruct hasOnAbort; repeat constructor.
  - repeat constructor. discriminate.
  - repeat constructor. discriminate.
  - destruct (negb (res_ok res)) eqn:Hok.
    + apply negb_true_iff in Hok.
      destruct (res_text res) eqn:Ht; repeat constructor;
        apply (Hconv res eq_refl Hok).
    + destruct (res_body res) as [[chunks fin]|].
      * apply read_loop_calls; simpl; auto; discriminate.
      * repeat constructor. discriminate.
  - constructor.
Qed.

(** X23.  The promise of [runEvalForModel] is settled whenever nothing
    stalls (the fetch settles, and the read of the error text or of the
    body ends or fails) and the error value of a response that is not ok
    can be converted to a string: the runner passes [onAbort], so the run
    of [streamMistralReply] ends with a call that resolves or rejects.
    Without these conditions the promise can stay pending: the runner sets
    no timeout. *)
Theorem runEvalForModel_settles_unless_stalled (prompt model generated : text)
    (fetched : FetchOutcome) (cache : list (MistralCallMetric Millis)) :
  never_stalls fetched = true ->
  (forall res : Response,
      fetched = FetchResolves res -> res_ok res = false ->
      js_String (api_error_text res) <> None) ->
  exists outcome : Settled Millis,
    settled Millis
      (runEvalForModel Millis clock metric_ids prompt model generated
         fetched cache)
    = Some outcome.
Proof.
  intros Hgo Hconv. unfold runEvalForModel.
  pose proof (reply_error_texts None generated true fetched Hconv) as Htexts.
  destruct (reply_ends_with_a_final_call None generated fetched Hgo)
    as (before & c & Heq & Hc).
  rewrite Heq in *. clear Heq.
  apply Forall_app in Htexts as [_ Htexts].
  apply Forall_cons in Htexts as [Hlast _].
  generalize 0%nat as k.
  generalize {| buffer := []; settled := None; metricsCache := cache |} as st.
  induction before as [|x before IH]; intros st k.
  - cbn [app eval_calls].
    destruct c as [a|chunk a|a|errText a|a]; try discriminate Hc;
      cbn [eval_callback settled]; unfold settle;
      try (destruct (js_String errText); [|contradiction]);
      destruct (settled Millis st); eexists; reflexivity.
  - cbn [app eval_calls]. apply IH.
Qed.

(** The promise stays pending when the fetch never settles, *)
Lemma stalled_fetch_leaves_promise_pending (prompt model generated : text)
    (cache : list (MistralCallMetric Millis)) :
  settled Millis
    (runEvalForModel Millis clock metric_ids prompt model generated
       FetchStalls cache)
  = None.
Proof. reflexivity. Qed.

(** and when the body of a response that is not ok is JSON whose [error]
    cannot be converted to a string, as in [{"error":{"toString":1}}]. *)
Lemma unconvertible_error_leaves_promise_pending
    (prompt model generated txt : text) (res : Response) (j e : value)
    (cache : list (MistralCallMetric Millis)) :
  res_ok res = false ->
  res_text res = TextIs txt ->
  JSON_parse txt = Some j ->
  when_truthy (opt_prop j (T "error")) = Some e ->
  js_String e = None ->
  settled Millis
    (runEvalForModel Millis clock metric_ids prompt model generated
       (FetchResolves res) cache)
  = None.
Proof.
  intros Hok Ht Hj He Hs.
  unfold runEvalForModel, streamMistralReply, api_error_text.
  rewrite Hok, Ht, Hj, He. simpl. rewrite Hs. reflexivity.
Qed.

(** X24.  The callbacks of [runEvalForModel] record one metric for every call of
    [onDone], [onError] or [onAbort], also after the promise is settled:
    the metrics cache grows by the number of these calls, up to
    [MAX_METRICS].  A run in which [onDone] is called twice is counted
    twice. *)
Theorem one_metric_per_final_call (prompt model : text)
    (calls : list Callback) (k : nat) (st : EvalState Millis) :
  length (metricsCache Millis ((eval_calls Millis clock metric_ids) prompt model k calls st)) =
    match length (List.filter is_final calls) with
    | O => length (metricsCache Millis st)
    | S n =>
        Nat.min MAX_METRICS (length (metricsCache Millis st) + S n)
    end.
Proof.
  revert k st. induction calls as [|c calls IH]; intros k st; [reflexivity|].
  cbn [eval_calls List.filter]. rewrite IH.
  destruct (is_final c) eqn:Hc.
  - assert (Hlen : length (metricsCache Millis ((eval_callback Millis clock metric_ids) prompt model k st c))
                   = Nat.min MAX_METRICS (S (length (metricsCache Millis st)))).
    { destruct c; try discriminate Hc; cbn [eval_callback metricsCache];
        unfold recordMistralMetric; rewrite length_take; reflexivity. }
    rewrite Hlen. cbn [length].
    destruct (length (List.filter is_final calls)); lia.
  - assert (Hsame : metricsCache Millis ((eval_callback Millis clock metric_ids) prompt model k st c)
                    = metricsCache Millis st).
    { destruct c; try discriminate Hc; reflexivity. }
    rewrite Hsame. reflexivity.
Qed.

End MetricFacts.

Section TitleFacts.
Context {rt : JsRuntime}.

(** X25.  [generateSessionTitle] never resolves to an empty title: the title is
    trimmed and not empty, or the result is [null].  A request is sent only
    for a prompt that is not empty once trimmed, and its body holds the
    trimmed prompt; with no request the result is [null]. *)
Theorem generateSessionTitle_result (prompt : option text)
    (fetch_title : value -> TitleFetched) :
  let '(sent, title) := generateSessionTitle prompt fetch_title in
  (forall t : text, title = Some t -> t <> [] /\ trim t = t)
  /\ (sent = [] \/
      exists question : text,
        sent = [JObject [(T "prompt", JString question)]]
        /\ question <> [] /\ Some question = trim <$> prompt)
  /\ (sent = [] -> title = None).
Proof.
  unfold generateSessionTitle.
  destruct (is_empty (default [] (trim <$> prompt))) eqn:Hq.
  - split; [discriminate|]. split; [left; reflexivity | reflexivity].
  - split; [|split; [|discriminate]].
    + intros t.
      destruct (fetch_title _) as [|[|] [data|]]; try discriminate.
      destruct (opt_prop data (T "title")) as [[| | |s| |]|]; try discriminate.
      destruct (is_empty (trim s)) eqn:Hs; [discriminate|].
      intros [= <-]. split; [|apply trim_idempotent].
      destruct (trim s); [discriminate Hs | discriminate].
    + right. destruct prompt as [p|]; [|discriminate Hq]. simpl in *.
      exists (trim p). split; [reflexivity|]. split; [|reflexivity].
      destruct (trim p); [discriminate Hq | discriminate].
Qed.

End TitleFacts.

Lemma split_at_first (sep : N) (s : text) :
  exists (first : text) (others : list text),
    split_at sep s = first :: others
    /\ Forall (fun c => c <> sep) first
    /\ (s = first \/ exists rest, s = first ++ sep :: rest).
Proof.
  induction s as [|c r (first & others & Heq & Hno & Hs)]; simpl.
  - exists [], []. repeat split; [constructor | left; reflexivity].
  - destruct (N.eqb_spec c sep) as [->|Hne].
    + exists [], (split_at sep r). repeat split; [constructor|].
      right. exists r. reflexivity.
    + rewrite Heq. exists (c :: first), others. simpl. repeat split.
      * constructor; assumption.
      * destruct Hs as [->|[rest ->]]; [left; reflexivity|].
        right. exists rest. reflexivity.
Qed.

Lemma split_at_plain (sep : N) (s : text) :
  Forall (fun c => c <> sep) s -> split_at sep s = [s].
Proof.
  induction 1 as [|c r Hc _ IH]; [reflexivity|]. simpl.
  apply N.eqb_neq in Hc. rewrite Hc, IH. reflexivity.
Qed.

Lemma split_at_one_sep (sep : N) (before after : text) :
  Forall (fun c => c <> sep) before ->
  split_at sep (before ++ sep :: after) = before :: split_at sep after.
Proof.
  induction 1 as [|c r Hc _ IH]; simpl.
  - rewrite N.eqb_refl. reflexivity.
  - apply N.eqb_neq in Hc. rewrite Hc, IH. reflexivity.
Qed.

(** X26.  [prepareAttachments] gives one entry per file, with the file's
    name and its type as [mimeType]; [type] is the part of the file's type
    before the first slash; [data] is the part of the data URL between its
    first comma and its second comma, or the end of the URL when there is
    no second comma, whatever follows a second comma; and it is [undefined]
    when the URL has no comma. *)
Theorem prepareAttachments_types (files : list FileRead) :
  List.map pa_filename (prepareAttachments files) = List.map file_name files
  /\ List.map pa_mimeType (prepareAttachments files)
     = List.map file_type files
  /\ Forall (fun a =>
               Forall (fun c => c <> 47) (pa_type a)
               /\ (pa_mimeType a = pa_type a
                   \/ exists subtype,
                        pa_mimeType a = pa_type a ++ 47 :: subtype))
       (prepareAttachments files)
  /\ Forall2 (fun file a =>
                (forall header payload rest : text,
                   Forall (fun c => c <> 44) header ->
                   Forall (fun c => c <> 44) payload ->
                   file_dataURL file = header ++ 44 :: payload
                   \/ file_dataURL file
                      = header ++ 44 :: payload ++ 44 :: rest ->
                   pa_data a = Some payload)
                /\ (Forall (fun c => c <> 44) (file_dataURL file) ->
                    pa_data a = None))
       files (prepareAttachments files).
Proof.
  unfold prepareAttachments. rewrite !List.map_map.
  split; [reflexivity|]. split; [reflexivity|]. split.
  - apply List.Forall_forall. intros a Hin.
    apply in_map_iff in Hin as (f & <- & _). cbn [pa_type pa_mimeType].
    destruct (split_at_first 47 (file_type f))
      as (first & others & -> & Hno & Hs).
    simpl. split; assumption.
  - induction files as [|f files IH]; [constructor|].
    constructor; [|exact IH]. cbn [pa_data]. unfold fileToBase64. split.
    + intros header payload rest Hh Hp [-> | ->].
      * rewrite (split_at_one_sep 44 header payload Hh),
          (split_at_plain 44 payload Hp).
        reflexivity.
      * rewrite (split_at_one_sep 44 header _ Hh),
          (split_at_one_sep 44 payload rest Hp).
        reflexivity.
    + intros Hno. rewrite (split_at_plain 44 _ Hno). reflexivity.
Qed.

(** ** Runs of the properties above on sample inputs *)

Lemma nothing_follows_onError_or_onAbort_witness :
  drop 3
    (streamMistralReply (rt := sample_runtime) None (T "a1") true
       (with_body {| status := 200; res_text := TextRejects; res_body := None |}
          [sse_frame delta_ab_json] (ReadRejects (ErrorObject (T "reset")))))
  = [].
Proof.
  apply (nothing_follows_onError_or_onAbort (rt := sample_runtime)
           None (T "a1") true
           (with_body {| status := 200; res_text := TextRejects; res_body := None |}
              [sse_frame delta_ab_json] (ReadRejects (ErrorObject (T "reset"))))
           [OnStart (T "a1"); OnToken (T "ab") (T "a1")]
           _
           (OnError (JString (T "reset")) (T "a1")));
    vm_compute; reflexivity.
Defined.

Lemma call_result_invariant_witness :
  exists r : CallResult,
    call (rt := sample_runtime) chat (error_500 (T "boom")) = inr r
    /\ ok r = false /\ errorText r <> [].
Proof.
  eexists. split; [vm_compute; reflexivity|].
  match goal with
  | |- ok ?r = _ /\ _ =>
      destruct (call_result_invariant (rt := sample_runtime) chat
                  (error_500 (T "boom")) r ltac:(vm_compute; reflexivity))
        as (_ & Hok & _ & Hiff)
  end.
  split; [exact Hok|]. intros He. apply Hiff in He. discriminate He.
Defined.

(** A relay that breaks before its first chunk, then an event stream that
    is relayed. *)
Lemma relayed_body_is_the_last_response_witness :
  exists (candidates : list text) (n : nat) (which : Which)
         (candidate : text) (resp : UpstreamResponse)
         (chunks : list (list byte)) (partial : list byte),
    families (requested (Some (T "my-model"))) = Some candidates
    /\ attempts candidates !! n = Some (which, candidate)
    /\ requests
         (handler (rt := sample_runtime) (Some (T "my-model"))
            (first_then (broken_stream [] (ErrorObject (T "terminated")))
               (event_stream 200 (Some [sse_frame done_json]))))
       = take (S n) (attempts candidates)
    /\ all_from (passed_over (rt := sample_runtime))
         (first_then (broken_stream [] (ErrorObject (T "terminated")))
            (event_stream 200 (Some [sse_frame done_json])))
         0 (take n (attempts candidates)) = true
    /\ first_then (broken_stream [] (ErrorObject (T "terminated")))
         (event_stream 200 (Some [sse_frame done_json])) n which candidate
       = Resolves resp
    /\ streams (rt := sample_runtime) (Resolves resp) = true
    /\ up_body resp = Some (chunks, BodyEnds)
    /\ sse_frame done_json = partial ++ List.concat chunks
    /\ (headers_sent_error (JsRuntime := sample_runtime) <> None ->
        partial = []).
Proof.
  apply (relayed_body_is_the_last_response (rt := sample_runtime)
           (Some (T "my-model"))
           (first_then (broken_stream [] (ErrorObject (T "terminated")))
              (event_stream 200 (Some [sse_frame done_json])))
           (sse_frame done_json)).
  vm_compute. reflexivity.
Defined.

(** A delta frame, then the read of the body fails. *)
Lemma reply_always_ends_witness :
  exists (before : list Callback) (c : Callback),
    streamMistralReply (rt := sample_runtime) None (T "a1") true
      (with_body
         {| status := 200; res_text := TextRejects; res_body := None |}
         [sse_frame delta_ab_json] (ReadRejects (ErrorObject (T "reset"))))
    = before ++ [c]
    /\ is_final c = true.
Proof.
  apply (reply_always_ends (rt := sample_runtime) None (T "a1")
           (with_body
              {| status := 200; res_text := TextRejects; res_body := None |}
              [sse_frame delta_ab_json]
              (ReadRejects (ErrorObject (T "reset"))))).
  vm_compute. reflexivity.
Defined.


Lemma full_cap_drops_the_rest_silently_witness :
  extract_loop N_to_text sample_extractTextFromFile [sample_notes]
    {| extractedText := T "kept"; totalChars := MAX_TOTAL_ATTACHMENT_CHARS |}
  = {| extractedText := T "kept"; totalChars := MAX_TOTAL_ATTACHMENT_CHARS |}.
Proof.
  apply (full_cap_drops_the_rest_silently N_to_text
           sample_extractTextFromFile sample_notes []
           {| extractedText := T "kept";
              totalChars := MAX_TOTAL_ATTACHMENT_CHARS |}).
  reflexivity.
Defined.

Lemma without_pixtral_contents_stay_strings_witness :
  Forall (fun m => has_string_content m = true)
    (merge_attachments N_to_text sample_extractTextFromFile
       (T "mistral-small-latest")
       (chatMessages (T "Be brief.")
          [{| role := user; content := StringContent (T "hi") |}])
       [sample_image; sample_notes]).
Proof.
  apply (without_pixtral_contents_stay_strings N_to_text
           sample_extractTextFromFile (T "mistral-small-latest")
           (T "Be brief.")
           [{| role := user; content := StringContent (T "hi") |}]
           [sample_image; sample_notes]).
  vm_compute. reflexivity.
Defined.

Lemma eval_resolves_with_the_tokens_before_the_first_final_call_witness :
  settled N
    (eval_calls (rt := sample_runtime) N sample_clock sample_metric_ids
       (T "2+2?") (T "mistral-small-latest") 0
       ([OnStart (T "a1"); OnToken (T " 4 ") (T "a1")]
        ++ OnDone (T "a1") :: [OnDone (T "a1")])
       {| buffer := []; settled := None; metricsCache := [] |})
  = Some
      (Resolved N
         {| eval_model := T "mistral-small-latest";
            eval_content := T "4";
            eval_durationMs := 2;
            eval_tokensEstimated := 2 |}).
Proof.
  apply (eval_resolves_with_the_tokens_before_the_first_final_call
           (rt := sample_runtime) N sample_clock sample_metric_ids
           (T "2+2?") (T "mistral-small-latest")
           [OnStart (T "a1"); OnToken (T " 4 ") (T "a1")]
           [OnDone (T "a1")] (OnDone (T "a1")) []).
  - repeat constructor.
  - reflexivity.
Defined.

(** A response with status 500 and the body "boom". *)
Lemma runEvalForModel_settles_unless_stalled_witness :
  exists outcome : Settled N,
    settled N
      (runEvalForModel (rt := sample_runtime) N sample_clock
         sample_metric_ids (T "2+2?") (T "mistral-small-latest") (T "a1")
         (FetchResolves
            {| status := 500; res_text := TextIs (T "boom");
               res_body := None |})
         [])
    = Some outcome.
Proof.
  apply (runEvalForModel_settles_unless_stalled (rt := sample_runtime)
           N sample_clock sample_metric_ids
           (T "2+2?") (T "mistral-small-latest") (T "a1")
           (FetchResolves
              {| status := 500; res_text := TextIs (T "boom");
                 res_body := None |})
           []).
  - reflexivity.
  - intros res [= <-] _. vm_compute. discriminate.
Defined.
